(** * A mailbox watcher (Koishi `mailbot` plugin): model and properties

    The plugin exists in the repository in two revisions of the same file.
    The later revision parses and cleans the message body, reserves the UIDs
    of a detection pass before it fetches them, awaits the broadcast and marks
    a notified message as read.  The earlier revision (src/index.ts) has no
    content pipeline, records a UID only when the attributes of the fetched
    message arrive, does not await the broadcast and deletes a notified
    message.  Both are embedded below; the functions that are identical in
    the two revisions are embedded once.

    JavaScript strings are sequences of UTF-16 code units, numbers used as
    identifiers are [N], sequence numbers and counts are [Z].  The module
    level variables of the plugin form a record that every handler threads
    explicitly; what a handler asks of the outside world (a search, a fetch,
    a timer, a call of the notification callback) is appended to a log of
    effects.  Calls of the logger are left out of the watcher handlers. *)

From Stdlib Require Import ZArith NArith Lia Bool Ascii String.
From stdpp Require Import base decidable option list sets gmap.

Open Scope N_scope.

(** ** JavaScript strings *)

Module Js.

(** A string is the list of its UTF-16 code units. *)
Abbreviation jsstring := (list N).

Fixpoint bytes_of (s : string) : list N :=
  match s with
  | EmptyString => []
  | String a s' => N_of_ascii a :: bytes_of s'
  end.

(** Source files are UTF-8; a literal of the source is read as the code
    units it denotes (code points above the BMP become a surrogate pair). *)
Fixpoint utf16_of_utf8 (bs : list N) : jsstring :=
  match bs with
  | [] => []
  | b0 :: r0 =>
    if b0 <? 0x80 then b0 :: utf16_of_utf8 r0
    else match r0 with
    | [] => [0xFFFD]
    | b1 :: r1 =>
      if b0 <? 0xE0
      then N.lor (N.shiftl (N.land b0 0x1F) 6) (N.land b1 0x3F) :: utf16_of_utf8 r1
      else match r1 with
      | [] => [0xFFFD]
      | b2 :: r2 =>
        if b0 <? 0xF0
        then N.lor (N.shiftl (N.land b0 0x0F) 12)
               (N.lor (N.shiftl (N.land b1 0x3F) 6) (N.land b2 0x3F))
             :: utf16_of_utf8 r2
        else match r2 with
        | [] => [0xFFFD]
        | b3 :: r3 =>
          let cp := N.lor (N.shiftl (N.land b0 0x07) 18)
                      (N.lor (N.shiftl (N.land b1 0x3F) 12)
                         (N.lor (N.shiftl (N.land b2 0x3F) 6) (N.land b3 0x3F))) in
          let v := cp - 0x10000 in
          (0xD800 + N.shiftr v 10) :: (0xDC00 + N.land v 0x3FF) :: utf16_of_utf8 r3
        end
      end
    end
  end.

Definition lit (s : string) : jsstring := utf16_of_utf8 (bytes_of s).

Definition LF : N := 10.

(** WhiteSpace and LineTerminator of ECMAScript: the characters that
    [String.prototype.trim] strips and that [\s] matches. *)
Definition isSpace (c : N) : bool :=
  (c =? 0x09) || (c =? 0x0A) || (c =? 0x0B) || (c =? 0x0C) || (c =? 0x0D)
  || (c =? 0x20) || (c =? 0xA0) || (c =? 0x1680)
  || ((0x2000 <=? c) && (c <=? 0x200A))
  || (c =? 0x2028) || (c =? 0x2029) || (c =? 0x202F) || (c =? 0x205F)
  || (c =? 0x3000) || (c =? 0xFEFF).

(** [\w]: ASCII letters, digits and the underscore. *)
Definition isWord (c : N) : bool :=
  ((0x41 <=? c) && (c <=? 0x5A)) || ((0x61 <=? c) && (c <=? 0x7A))
  || ((0x30 <=? c) && (c <=? 0x39)) || (c =? 0x5F).

Fixpoint trimStart (s : jsstring) : jsstring :=
  match s with
  | [] => []
  | c :: s' => if isSpace c then trimStart s' else s
  end.

Definition trimEnd (s : jsstring) : jsstring := rev (trimStart (rev s)).

Definition trim (s : jsstring) : jsstring := trimEnd (trimStart s).

(** [s.split('\n')]: never empty, [''.split('\n')] is [['']]. *)
Fixpoint split_lines (s : jsstring) : list jsstring :=
  match s with
  | [] => [[]]
  | c :: s' =>
    if c =? LF then [] :: split_lines s'
    else match split_lines s' with
         | l :: ls => (c :: l) :: ls
         | [] => [[c]]
         end
  end.

(** [a.join('\n')]. *)
Fixpoint join_lines (ls : list jsstring) : jsstring :=
  match ls with
  | [] => []
  | [l] => l
  | l :: ls' => l ++ LF :: join_lines ls'
  end.

(** Truthiness of a string: [!s] holds of the empty string only. *)
Definition falsy (s : jsstring) : bool :=
  match s with [] => true | _ => false end.

End Js.

(** ** Regular expressions

    The patterns of the plugin use literals, character classes, sequence,
    alternation, the star and plus quantifiers, the anchors and the word
    boundary.  [RegExp.prototype.test] and the truth value of
    [String.prototype.match] only tell whether some match exists, so the
    matcher is a backtracking search in continuation-passing style: the
    continuation receives the character just consumed (for the word
    boundary and the start anchor) and the rest of the input. *)

Module Regex.
Import Js.

Inductive regex : Type :=
| Empty
| Chr (c : N)
| CharClass (p : N -> bool)
| Cat (r1 r2 : regex)
| Or (r1 r2 : regex)
| Star (r : regex)
| Bol
| Eol
| WordBoundary.

(** Canonicalize of the [i] flag without the [u] flag: upper-casing, never
    from a non-ASCII character to an ASCII one.  The literals of the
    patterns below are ASCII or caseless ideographs, which no other
    character is upper-cased to, so only ASCII letters need folding. *)
Definition canonicalize (c : N) : N :=
  if (0x61 <=? c) && (c <=? 0x7A) then c - 0x20 else c.

Definition chr_eq (ignoreCase : bool) (c x : N) : bool :=
  if ignoreCase then canonicalize c =? canonicalize x else c =? x.

Definition isWordBefore (prev : option N) : bool :=
  match prev with Some c => isWord c | None => false end.

Definition isWordAt (s : jsstring) : bool :=
  match s with c :: _ => isWord c | [] => false end.

Definition cont := option N -> jsstring -> bool.

(** The star: the continuation, or one more iteration that consumes at
    least one character (an iteration that matches the empty string is
    rejected, as the language specifies).  [fuel] bounds the number of
    iterations; the length of the input is enough. *)
Fixpoint iterate (body : cont -> cont) (k : cont) (fuel : nat)
    (prev : option N) (s : jsstring) {struct fuel} : bool :=
  k prev s ||
  match fuel with
  | O => false
  | S fuel' =>
    body (fun prev' s' => (length s' <? length s)%nat && iterate body k fuel' prev' s')
         prev s
  end.

Fixpoint matches (ignoreCase : bool) (r : regex) (k : cont)
    (prev : option N) (s : jsstring) {struct r} : bool :=
  match r with
  | Empty => k prev s
  | Chr c =>
    match s with
    | x :: s' => chr_eq ignoreCase c x && k (Some x) s'
    | [] => false
    end
  | CharClass p =>
    match s with
    | x :: s' => p x && k (Some x) s'
    | [] => false
    end
  | Cat r1 r2 => matches ignoreCase r1 (matches ignoreCase r2 k) prev s
  | Or r1 r2 => matches ignoreCase r1 k prev s || matches ignoreCase r2 k prev s
  | Star r1 => iterate (matches ignoreCase r1) k (length s) prev s
  | Bol => match prev with None => k prev s | Some _ => false end
  | Eol => match s with [] => k prev s | _ :: _ => false end
  | WordBoundary => xorb (isWordBefore prev) (isWordAt s) && k prev s
  end.

(** An unanchored pattern is tried at every start position. *)
Fixpoint search (ignoreCase : bool) (r : regex) (prev : option N) (s : jsstring) : bool :=
  matches ignoreCase r (fun _ _ => true) prev s
  || match s with
     | [] => false
     | x :: s' => search ignoreCase r (Some x) s'
     end.

(** [/r/.test(s)] and [/r/i.test(s)]. *)
Definition test (r : regex) (s : jsstring) : bool := search false r None s.
Definition test_i (r : regex) (s : jsstring) : bool := search true r None s.

Definition Plus (r : regex) : regex := Cat r (Star r).

Fixpoint Str (s : jsstring) : regex :=
  match s with
  | [] => Empty
  | c :: s' => Cat (Chr c) (Str s')
  end.

Fixpoint Seq (rs : list regex) : regex :=
  match rs with
  | [] => Empty
  | r :: rs' => Cat r (Seq rs')
  end.

Fixpoint AnyOf (rs : list regex) : regex :=
  match rs with
  | [] => CharClass (fun _ => false)
  | [r] => r
  | r :: rs' => Or r (AnyOf rs')
  end.

Definition space : regex := CharClass isSpace.
Definition notSpace : regex := CharClass (fun c => negb (isSpace c)).

End Regex.

(** ** Content pipeline: [cleanEmailContent] *)

Module Content.
Import Js Regex.

Definition pipe : N := 0x7C.
Definition dash : N := 0x2D.

(** [/\b(code|验证码|密码|password|auth|token|key)\b/i] *)
Definition reImportantInfo : regex :=
  Seq [ WordBoundary;
        AnyOf [ Str (lit "code"); Str (lit "验证码"); Str (lit "密码");
                Str (lit "password"); Str (lit "auth"); Str (lit "token");
                Str (lit "key") ];
        WordBoundary ].

(** [/^[|]+\s*$/] *)
Definition rePipes : regex := Seq [Bol; Plus (Chr pipe); Star space; Eol].
(** [/^\s*[-]+\s*$/] *)
Definition reDashes : regex := Seq [Bol; Star space; Plus (Chr dash); Star space; Eol].
(** [/^[|]\s*[|]\s*$/] *)
Definition rePipePair : regex :=
  Seq [Bol; Chr pipe; Star space; Chr pipe; Star space; Eol].
(** [/^\s*[|]\s*$/] *)
Definition reLonePipe : regex := Seq [Bol; Star space; Chr pipe; Star space; Eol].

(** [[^\s]+@[^\s]+\.[^\s]+] *)
Definition address : regex :=
  Seq [Plus notSpace; Chr 0x40; Plus notSpace; Chr 0x2E; Plus notSpace].

(** [/^[^\s]+@[^\s]+\.[^\s]+$/] *)
Definition reBareAddress : regex := Seq [Bol; address; Eol].
(** [/^(发件人|from|sender):\s*[^\s]+@[^\s]+\.[^\s]+$/i] *)
Definition reSenderLine : regex :=
  Seq [Bol; AnyOf [Str (lit "发件人"); Str (lit "from"); Str (lit "sender")];
       Chr 0x3A; Star space; address; Eol].
(** [/^(邮箱|email|联系):\s*[^\s]+@[^\s]+\.[^\s]+$/i] *)
Definition reContactLine : regex :=
  Seq [Bol; AnyOf [Str (lit "邮箱"); Str (lit "email"); Str (lit "联系")];
       Chr 0x3A; Star space; address; Eol].

Definition hasImportantInfo (line : jsstring) : bool := test_i reImportantInfo line.

Definition isSeparator (line : jsstring) : bool :=
  test rePipes line || test reDashes line || test rePipePair line || test reLonePipe line.

Definition isEmailSignature (line : jsstring) : bool :=
  test reBareAddress line || test_i reSenderLine line || test_i reContactLine line.

(** The [for] loop over [lines]; [coreContent] is the array being pushed to.
    Returning the accumulator is the [break]. *)
Fixpoint scanLines (lines : list jsstring) (coreContent : list jsstring) : list jsstring :=
  match lines with
  | [] => coreContent
  | line :: rest =>
    if falsy line then scanLines rest coreContent
    else if hasImportantInfo line then scanLines rest (coreContent ++ [line])
    else if isSeparator line then coreContent
    else if isEmailSignature line then coreContent
    else if (0 <? length line)%nat then scanLines rest (coreContent ++ [line])
    else scanLines rest coreContent
  end.

Definition cleanEmailContent (rawText : jsstring) : jsstring :=
  if falsy rawText then []
  else
    let lines := map trim (split_lines rawText) in
    let coreContent := scanLines lines [] in
    trim (join_lines coreContent).

End Content.

(** ** Messages and protocol requests *)

Module Mail.
Import Js.

(** An [Error] object, by its message. *)
Inductive Err : Type := Error (message : jsstring).

Record Headers : Type := mkHeaders {
  h_from : jsstring;
  h_to : jsstring;
  h_subject : jsstring;
  h_date : jsstring;
  h_messageId : jsstring
}.

(** [messageData]: [headers] stays undefined until the header part has been
    read, [bodyText] until the text part has. *)
Record Message : Type := mkMessage {
  seqno : Z;
  uid : N;
  headers : option Headers;
  bodyText : option jsstring
}.

(** [array.sort(cmp)] is a stable sort; with the comparator
    [(a, b) => key(b) - key(a)] an element goes in front of the first
    element whose key is not larger than its own. *)
Fixpoint insertDesc (key : Message -> Z) (x : Message) (l : list Message) : list Message :=
  match l with
  | [] => [x]
  | y :: l' => if (key x <? key y)%Z then y :: insertDesc key x l' else x :: l
  end.

Definition sortDesc (key : Message -> Z) (l : list Message) : list Message :=
  foldr (insertDesc key) [] l.

Definition uidKey (m : Message) : Z := Z.of_N (uid m).

End Mail.

(** ** The watcher

    The handlers below are the callbacks the plugin registers with the
    protocol client and with the timer facility, plus the two entry points
    [startMailMonitor] and [stopMailMonitor].  Callbacks run one at a time;
    the continuation of an [await] runs right after the callback that
    settles the promise, so it is part of the same handler here. *)

Module Watcher.
Import Js Mail.

(** The two revisions of the plugin. *)
Inductive Revision : Type :=
| Earlier   (* src/index.ts: the UID is recorded when the attributes arrive *)
| Later.    (* the UIDs are recorded before the fetch is issued *)

Record Config : Type := mkConfig {
  host : jsstring;
  port : N;
  user : jsstring;
  password : jsstring;
  tls : bool
}.

(** The module-level variables ([mailboxName] never changes). *)
Record Vars : Type := mkVars {
  imap : option N;
  isMonitoring : bool;
  reconnectTimer : option N;
  pollTimer : option N;
  lastMailCount : Z;
  imapConfig : option Config;
  onNewMailCallback : option N;
  lastCheckedUids : gset N
}.

Inductive TimerKind : Type := Poll | Reconnect.

Inductive Listener : Type := LReady | LError | LEnd | LMail.

#[global] Instance Listener_eq_dec : EqDecision Listener.
Proof. solve_decision. Defined.

(** Who waits for the promise of [connectToMailMonitor]. *)
Inductive Awaiter : Type :=
| AwaitStart       (* the [await] in [startMailMonitor] *)
| AwaitReconnect.  (* the [.catch] in the reconnect timer *)

(** A command handed to the protocol client whose callback is pending. *)
Inductive Request : Type :=
| ReqOpenBox (promise : N)
| ReqSearch
| ReqFetch (uids : list N) (messages : list Message).

Inductive Effect : Type :=
| Connect (session : N)
| OpenBox (session request : N)
| Search (session request : N)
| Fetch (session request : N) (uids : list N)
| Notify (callback : N) (messages : list Message)
| SetTimeout (timer : N) (kind : TimerKind) (delay : Z)
| ClearTimeout (timer : N)
| EndSession (session : N)
| StartReturns
| StartThrows (err : Err)
| Uncaught.   (* an exception nobody catches: a TypeError from [imap!] while
                 [imap] is null, or an [error] event without a listener *)

(** The variables together with what the host keeps: armed timers,
    listeners attached to session objects, unsettled promises, pending
    requests, the next fresh object identity, and the effects so far. *)
Record Runtime : Type := mkRuntime {
  vars : Vars;
  timers : gmap N TimerKind;
  listeners : list (N * Listener);
  promises : gmap N Awaiter;
  requests : gmap N Request;
  nextId : N;
  log : list Effect
}.

Definition init : Runtime :=
  {| vars := {| imap := None; isMonitoring := false; reconnectTimer := None;
                pollTimer := None; lastMailCount := 0%Z; imapConfig := None;
                onNewMailCallback := None; lastCheckedUids := ∅ |};
     timers := ∅; listeners := []; promises := ∅; requests := ∅;
     nextId := 0; log := [] |}.

Section Setters.
Context (rt : Runtime).
Let v := vars rt.

Definition with_vars (v' : Vars) : Runtime :=
  {| vars := v'; timers := timers rt; listeners := listeners rt;
     promises := promises rt; requests := requests rt; nextId := nextId rt;
     log := log rt |}.

Definition set_imap (x : option N) : Runtime :=
  with_vars {| imap := x; isMonitoring := isMonitoring v;
     reconnectTimer := reconnectTimer v; pollTimer := pollTimer v;
     lastMailCount := lastMailCount v; imapConfig := imapConfig v;
     onNewMailCallback := onNewMailCallback v; lastCheckedUids := lastCheckedUids v |}.

Definition set_isMonitoring (x : bool) : Runtime :=
  with_vars {| imap := imap v; isMonitoring := x;
     reconnectTimer := reconnectTimer v; pollTimer := pollTimer v;
     lastMailCount := lastMailCount v; imapConfig := imapConfig v;
     onNewMailCallback := onNewMailCallback v; lastCheckedUids := lastCheckedUids v |}.

Definition set_reconnectTimer (x : option N) : Runtime :=
  with_vars {| imap := imap v; isMonitoring := isMonitoring v;
     reconnectTimer := x; pollTimer := pollTimer v;
     lastMailCount := lastMailCount v; imapConfig := imapConfig v;
     onNewMailCallback := onNewMailCallback v; lastCheckedUids := lastCheckedUids v |}.

Definition set_pollTimer (x : option N) : Runtime :=
  with_vars {| imap := imap v; isMonitoring := isMonitoring v;
     reconnectTimer := reconnectTimer v; pollTimer := x;
     lastMailCount := lastMailCount v; imapConfig := imapConfig v;
     onNewMailCallback := onNewMailCallback v; lastCheckedUids := lastCheckedUids v |}.

Definition set_lastMailCount (x : Z) : Runtime :=
  with_vars {| imap := imap v; isMonitoring := isMonitoring v;
     reconnectTimer := reconnectTimer v; pollTimer := pollTimer v;
     lastMailCount := x; imapConfig := imapConfig v;
     onNewMailCallback := onNewMailCallback v; lastCheckedUids := lastCheckedUids v |}.

Definition set_start (c : Config) (cb : N) : Runtime :=
  with_vars {| imap := imap v; isMonitoring := true;
     reconnectTimer := reconnectTimer v; pollTimer := pollTimer v;
     lastMailCount := lastMailCount v; imapConfig := Some c;
     onNewMailCallback := Some cb; lastCheckedUids := lastCheckedUids v |}.

Definition set_lastCheckedUids (x : gset N) : Runtime :=
  with_vars {| imap := imap v; isMonitoring := isMonitoring v;
     reconnectTimer := reconnectTimer v; pollTimer := pollTimer v;
     lastMailCount := lastMailCount v; imapConfig := imapConfig v;
     onNewMailCallback := onNewMailCallback v; lastCheckedUids := x |}.

Definition set_timers (x : gmap N TimerKind) : Runtime :=
  {| vars := vars rt; timers := x; listeners := listeners rt;
     promises := promises rt; requests := requests rt; nextId := nextId rt;
     log := log rt |}.

Definition set_listeners (x : list (N * Listener)) : Runtime :=
  {| vars := vars rt; timers := timers rt; listeners := x;
     promises := promises rt; requests := requests rt; nextId := nextId rt;
     log := log rt |}.

Definition set_promises (x : gmap N Awaiter) : Runtime :=
  {| vars := vars rt; timers := timers rt; listeners := listeners rt;
     promises := x; requests := requests rt; nextId := nextId rt;
     log := log rt |}.

Definition set_requests (x : gmap N Request) : Runtime :=
  {| vars := vars rt; timers := timers rt; listeners := listeners rt;
     promises := promises rt; requests := x; nextId := nextId rt;
     log := log rt |}.

Definition bump : Runtime :=
  {| vars := vars rt; timers := timers rt; listeners := listeners rt;
     promises := promises rt; requests := requests rt; nextId := nextId rt + 1;
     log := log rt |}.

Definition emit (e : Effect) : Runtime :=
  {| vars := vars rt; timers := timers rt; listeners := listeners rt;
     promises := promises rt; requests := requests rt; nextId := nextId rt;
     log := log rt ++ [e] |}.

End Setters.

Definition pollInterval : Z := 10000.
Definition reconnectDelay : Z := 10000.

Definition hasListener (rt : Runtime) (sid : N) (l : Listener) : bool :=
  bool_decide ((sid, l) ∈ listeners rt).

(** Removes a [once] listener when it fires. *)
Definition dropListener (sid : N) (l : Listener) (rt : Runtime) : Runtime :=
  set_listeners rt (filter (λ p, p ≠ (sid, l)) (listeners rt)).

(** [session.removeAllListeners()]. *)
Definition removeAllListeners (sid : N) (rt : Runtime) : Runtime :=
  set_listeners rt (filter (λ p, p.1 ≠ sid) (listeners rt)).

Definition addListener (sid : N) (l : Listener) (rt : Runtime) : Runtime :=
  set_listeners rt (listeners rt ++ [(sid, l)]).

(** Settling a promise a second time does nothing. *)
Definition resolvePromise (p : N) (rt : Runtime) : Runtime :=
  match promises rt !! p with
  | None => rt
  | Some AwaitStart => emit (set_promises rt (delete p (promises rt))) StartReturns
  | Some AwaitReconnect => set_promises rt (delete p (promises rt))
  end.

(** The [catch] of [startMailMonitor] resets [isMonitoring] and rethrows;
    the [.catch] of the reconnect timer only logs. *)
Definition rejected (a : Awaiter) (err : Err) (rt : Runtime) : Runtime :=
  match a with
  | AwaitStart => emit (set_isMonitoring rt false) (StartThrows err)
  | AwaitReconnect => rt
  end.

Definition rejectPromise (p : N) (err : Err) (rt : Runtime) : Runtime :=
  match promises rt !! p with
  | None => rt
  | Some a => rejected a err (set_promises rt (delete p (promises rt)))
  end.

(** [fetchLatestUnread], up to the call of [imap.search]. *)
Definition fetchLatestUnread (rt : Runtime) : Runtime :=
  match imap (vars rt) with
  | None => rt
  | Some sid =>
    if isMonitoring (vars rt) then
      let rid := nextId rt in
      emit (bump (set_requests rt (<[rid := ReqSearch]> (requests rt)))) (Search sid rid)
    else rt
  end.

(** The callback of [imap.search] inside [fetchLatestUnread].  A missing
    result array is the empty list. *)
Definition searchCallback (rev : Revision) (result : Err + list N) (rt : Runtime) : Runtime :=
  match result with
  | inl _ => rt
  | inr results =>
    match results with
    | [] => rt
    | _ :: _ =>
      let newUids := filter (λ uid, uid ∉ lastCheckedUids (vars rt)) results in
      match newUids with
      | [] => rt
      | _ :: _ =>
        let rt1 :=
          match rev with
          | Later =>
            set_lastCheckedUids rt (lastCheckedUids (vars rt) ∪ list_to_set newUids)
          | Earlier => rt
          end in
        match imap (vars rt1) with
        | None => emit rt1 Uncaught
        | Some sid =>
          let rid := nextId rt1 in
          emit (bump (set_requests rt1 (<[rid := ReqFetch newUids []]> (requests rt1))))
               (Fetch sid rid newUids)
        end
      end
    end
  end.

(** One fetched message: its [attributes] and then its [end] event. *)
Definition messageCallback (rev : Revision) (rid : N) (msg : Message) (rt : Runtime) : Runtime :=
  match requests rt !! rid with
  | Some (ReqFetch uids messages) =>
    let rt1 :=
      match rev with
      | Earlier => set_lastCheckedUids rt (lastCheckedUids (vars rt) ∪ {[uid msg]})
      | Later => rt
      end in
    set_requests rt1 (<[rid := ReqFetch uids (messages ++ [msg])]> (requests rt1))
  | _ => rt
  end.

(** The [end] event of the fetch. *)
Definition fetchEnd (rid : N) (rt : Runtime) : Runtime :=
  match requests rt !! rid with
  | Some (ReqFetch uids messages) =>
    let rt1 := set_requests rt (delete rid (requests rt)) in
    match messages with
    | [] => rt1
    | _ :: _ =>
      match onNewMailCallback (vars rt1) with
      | Some cb => emit rt1 (Notify cb (sortDesc seqno messages))
      | None => rt1
      end
    end
  | _ => rt
  end.

Definition startPolling (rt : Runtime) : Runtime :=
  if isMonitoring (vars rt) then
    let tid := nextId rt in
    emit (bump (set_timers (set_pollTimer rt (Some tid)) (<[tid := Poll]> (timers rt))))
         (SetTimeout tid Poll pollInterval)
  else rt.

Definition handleDisconnect (rt : Runtime) : Runtime :=
  if isMonitoring (vars rt) then
    let rt1 :=
      match imap (vars rt) with
      | Some sid => set_imap (removeAllListeners sid rt) None
      | None => rt
      end in
    let tid := nextId rt1 in
    emit (bump (set_timers (set_reconnectTimer rt1 (Some tid))
                  (<[tid := Reconnect]> (timers rt1))))
         (SetTimeout tid Reconnect reconnectDelay)
  else rt.

Definition connectToMailMonitor (a : Awaiter) (rt : Runtime) : Runtime :=
  match imapConfig (vars rt) with
  | None => rejected a (Error (lit "IMAP配置不存在")) rt
  | Some _ =>
    let sid := nextId rt in
    let rt1 := set_imap (bump rt) (Some sid) in
    let rt2 := addListener sid LEnd (addListener sid LError (addListener sid LReady rt1)) in
    emit (set_promises rt2 (<[sid := a]> (promises rt2))) (Connect sid)
  end.

(** [openBoxAndListen], up to the call of [imap.openBox]; [p] is the promise
    of the connection attempt whose [ready] event fired. *)
Definition openBoxAndListen (p : N) (rt : Runtime) : Runtime :=
  match imap (vars rt) with
  | None => rejectPromise p (Error (lit "IMAP连接不存在")) rt
  | Some sid =>
    let rid := nextId rt in
    emit (bump (set_requests rt (<[rid := ReqOpenBox p]> (requests rt)))) (OpenBox sid rid)
  end.

(** The callback of [imap.openBox]. *)
Definition openBoxCallback (rid : N) (result : Err + Z) (rt : Runtime) : Runtime :=
  match requests rt !! rid with
  | Some (ReqOpenBox p) =>
    let rt1 := set_requests rt (delete rid (requests rt)) in
    match result with
    | inl err => rejectPromise p err rt1
    | inr total =>
      let rt2 := fetchLatestUnread (set_lastMailCount rt1 total) in
      match imap (vars rt2) with
      | None => emit rt2 Uncaught
      | Some sid => resolvePromise p (startPolling (addListener sid LMail rt2))
      end
    end
  | _ => rt
  end.

Definition timerCallback (kind : TimerKind) (rt : Runtime) : Runtime :=
  match kind with
  | Poll =>
    if isMonitoring (vars rt) then startPolling (fetchLatestUnread rt) else rt
  | Reconnect =>
    if isMonitoring (vars rt) then connectToMailMonitor AwaitReconnect rt else rt
  end.

Definition clearTimeout (tid : N) (rt : Runtime) : Runtime :=
  emit (set_timers rt (delete tid (timers rt))) (ClearTimeout tid).

Definition startMailMonitor (config : Config) (onNewMail : N) (rt : Runtime) : Runtime :=
  if isMonitoring (vars rt) then emit rt StartReturns
  else connectToMailMonitor AwaitStart (set_start rt config onNewMail).

Definition stopMailMonitor (rt : Runtime) : Runtime :=
  let rt1 := set_isMonitoring rt false in
  let rt2 :=
    match reconnectTimer (vars rt1) with
    | Some t => set_reconnectTimer (clearTimeout t rt1) None
    | None => rt1
    end in
  let rt3 :=
    match pollTimer (vars rt2) with
    | Some t => set_pollTimer (clearTimeout t rt2) None
    | None => rt2
    end in
  let rt4 :=
    match imap (vars rt3) with
    | Some sid => set_imap (emit (removeAllListeners sid rt3) (EndSession sid)) None
    | None => rt3
    end in
  set_lastCheckedUids rt4 ∅.

Definition getMonitorStatus (rt : Runtime) : bool * Z :=
  (isMonitoring (vars rt), lastMailCount (vars rt)).

(** What the host delivers to the plugin. *)
Inductive Event : Type :=
| CallStart (config : Config) (onNewMail : N)
| CallStop
| OnReady (session : N)
| OnError (session : N) (err : Err)
| OnEnd (session : N)
| OnMail (session : N) (numNewMsgs : N)
| OnTimer (timer : N)
| OnOpenBox (request : N) (result : Err + Z)
| OnSearch (request : N) (result : Err + list N)
| OnMessage (request : N) (msg : Message)
| OnFetchError (request : N) (err : Err)
| OnFetchEnd (request : N).

(** An event reaches its handler only if the listener is still attached,
    the timer still armed, the request still pending.  An [error] event that
    finds no listener is thrown by the emitter: the [error] handler is
    attached with [once], and [removeAllListeners] in [handleDisconnect] and
    in [stopMailMonitor] takes it away. *)
Definition step (rev : Revision) (rt : Runtime) (ev : Event) : Runtime :=
  match ev with
  | CallStart config onNewMail => startMailMonitor config onNewMail rt
  | CallStop => stopMailMonitor rt
  | OnReady sid =>
    if hasListener rt sid LReady
    then openBoxAndListen sid (dropListener sid LReady rt) else rt
  | OnError sid err =>
    if hasListener rt sid LError
    then rejectPromise sid err (handleDisconnect (dropListener sid LError rt))
    else emit rt Uncaught
  | OnEnd sid =>
    if hasListener rt sid LEnd
    then handleDisconnect (dropListener sid LEnd rt) else rt
  | OnMail sid _ =>
    if hasListener rt sid LMail then fetchLatestUnread rt else rt
  | OnTimer tid =>
    match timers rt !! tid with
    | Some kind => timerCallback kind (set_timers rt (delete tid (timers rt)))
    | None => rt
    end
  | OnOpenBox rid result => openBoxCallback rid result rt
  | OnSearch rid result =>
    match requests rt !! rid with
    | Some ReqSearch =>
      searchCallback rev result (set_requests rt (delete rid (requests rt)))
    | _ => rt
    end
  | OnMessage rid msg => messageCallback rev rid msg rt
  | OnFetchError _ _ => rt
  | OnFetchEnd rid => fetchEnd rid rt
  end.

Definition run (rev : Revision) (rt : Runtime) (evs : list Event) : Runtime :=
  foldl (step rev) rt evs.

(** The two ways a session is lost: a protocol error, or the server ends
    the session. *)
Inductive Drop : Type :=
| ProtocolError (err : Err)
| SessionEnd.

Definition dropEvent (d : Drop) (sid : N) : Event :=
  match d with
  | ProtocolError err => OnError sid err
  | SessionEnd => OnEnd sid
  end.

Definition dropHandler (d : Drop) : Listener :=
  match d with
  | ProtocolError _ => LError
  | SessionEnd => LEnd
  end.

(** *** Observations on a run *)

Definition ledger (rt : Runtime) : gset N := lastCheckedUids (vars rt).

Definition fetchedBy (e : Effect) : list N :=
  match e with Fetch _ _ uids => uids | _ => [] end.

Definition notifiedBy (e : Effect) : list N :=
  match e with Notify _ messages => map uid messages | _ => [] end.

(** The UIDs fetched, and the UIDs handed to the callback, in order. *)
Definition fetched (l : list Effect) : list N := concat (map fetchedBy l).
Definition notified (l : list Effect) : list N := concat (map notifiedBy l).

Definition isStop (ev : Event) : bool :=
  match ev with CallStop => true | _ => false end.

(** What the protocol promises: a search lists a UID once; a fetch delivers
    only messages that were asked for, each once. *)
Definition answers (rt : Runtime) (ev : Event) : bool :=
  match ev with
  | OnSearch _ (inr results) => bool_decide (NoDup results)
  | OnMessage rid msg =>
    match requests rt !! rid with
    | Some (ReqFetch uids messages) =>
      bool_decide (uid msg ∈ uids) && bool_decide (uid msg ∉ map uid messages)
    | _ => true
    end
  | _ => true
  end.

Fixpoint wellBehaved (rev : Revision) (rt : Runtime) (evs : list Event) : bool :=
  match evs with
  | [] => true
  | ev :: evs' => answers rt ev && wellBehaved rev (step rev rt ev) evs'
  end.

End Watcher.

(** ** The notification dispatcher: [handleNewMail]

    The loop awaits one message after the other.  What it meets on the way
    (whether the broadcast fails and how, whether the watcher still has a
    session when post-processing starts, what the server answers to the flag
    and expunge commands) is given per message.  The text of the notice is a
    function of the message and does not influence the control flow; the
    broadcast action carries the message it was built from.  What the
    protocol client reports is an [Error] object; what a failed broadcast
    throws or rejects with is any value, [null] and [undefined] included. *)

Module Dispatcher.
Import Js Mail Watcher.

(** What a [catch] receives: [null] or [undefined], or a value whose
    properties can be read (an [Error] object as a rule). *)
Inductive Thrown : Type :=
| Nullish
| Raised (err : Err).

Inductive SendOutcome : Type :=
| SendOk
| SendThrows (reason : Thrown)     (* [ctx.broadcast(...)] throws *)
| SendRejects (reason : Thrown).   (* the promise it returns is rejected *)

Record World : Type := mkWorld {
  broadcast : Message -> SendOutcome;
  sessionUp : Message -> bool;          (* [imap && isMonitoring] *)
  addFlags : Message -> option Err;
  expunge : Message -> option Err
}.

Inductive Flag : Type := Seen | Deleted.

(** The warnings that name the message: the one that closes the [catch]
    of a failed send, and the one of a failed post-processing. *)
Inductive LogEntry : Type :=
| SendFailed (uid : N)
| PostProcessingFailed (uid : N).

Inductive Action : Type :=
| Broadcast (msg : Message)
| AddFlags (uid : N) (flag : Flag)
| Expunge
| Log (entry : LogEntry).

(** [markEmailAsRead(uid)]: the actions, and the error if it rejects. *)
Definition markEmailAsRead (w : World) (msg : Message) : list Action * option Err :=
  if sessionUp w msg then
    match addFlags w msg with
    | Some err => ([AddFlags (uid msg) Seen], Some err)
    | None => ([AddFlags (uid msg) Seen], None)
    end
  else ([], Some (Error (lit "IMAP连接不可用"))).

(** [deleteEmailByUid(uid)] of the earlier revision. *)
Definition deleteEmailByUid (w : World) (msg : Message) : list Action * option Err :=
  if sessionUp w msg then
    match addFlags w msg with
    | Some err => ([AddFlags (uid msg) Deleted], Some err)
    | None =>
      match expunge w msg with
      | Some err => ([AddFlags (uid msg) Deleted; Expunge], Some err)
      | None => ([AddFlags (uid msg) Deleted; Expunge], None)
      end
    end
  else ([], Some (Error (lit "IMAP连接不可用"))).

Definition postProcess (rev : Revision) (w : World) (msg : Message) : list Action :=
  let '(acts, failure) :=
    match rev with
    | Later => markEmailAsRead w msg
    | Earlier => deleteEmailByUid w msg
    end in
  match failure with
  | Some _ => acts ++ [Log (PostProcessingFailed (uid msg))]
  | None => acts
  end.

(** The [catch] of a failed send.  The earlier revision logs the value it
    caught.  The later revision reads [error.constructor.name] first, which
    throws a TypeError when the value is [null] or [undefined]: the warning
    that names the message is not reached and the exception leaves the loop
    ([false]). *)
Definition sendFailed (rev : Revision) (reason : Thrown) (msg : Message)
    : list Action * bool :=
  match rev, reason with
  | Later, Nullish => ([], false)
  | _, _ => ([Log (SendFailed (uid msg))], true)
  end.

(** One iteration: the actions, and whether it ran to its end.  The later
    revision awaits the broadcast, the earlier one calls it without [await],
    so that only a synchronous throw reaches its [catch]. *)
Definition notify (rev : Revision) (w : World) (msg : Message) : list Action * bool :=
  match broadcast w msg, rev with
  | SendOk, _ => (Broadcast msg :: postProcess rev w msg, true)
  | SendThrows reason, _ =>
    let '(acts, ok) := sendFailed rev reason msg in (Broadcast msg :: acts, ok)
  | SendRejects reason, Later =>
    let '(acts, ok) := sendFailed rev reason msg in (Broadcast msg :: acts, ok)
  | SendRejects _, Earlier => (Broadcast msg :: postProcess rev w msg, true)
  end.

(** The loop; [false] when an exception leaves it: reading a field of
    missing headers throws outside the [try], and so does the [catch] of
    the later revision on a [null] or [undefined] reason. *)
Fixpoint handleNewMail (rev : Revision) (w : World) (messages : list Message)
    : list Action * bool :=
  match messages with
  | [] => ([], true)
  | msg :: rest =>
    match headers msg with
    | None => ([], false)
    | Some _ =>
      let '(acts, ok) := notify rev w msg in
      if ok then
        let '(acts', ok') := handleNewMail rev w rest in (acts ++ acts', ok')
      else (acts, false)
    end
  end.

End Dispatcher.

(** ** Listing: [searchMails], [getMailList] and the [mailbot.list] command

    The listing opens a session of its own.  The server is given by what it
    answers to each command; a fetch delivers messages and then ends or
    fails.  Both functions fetch with [imap.fetch], the command that
    [searchMails] and [fetchLatestUnread] hand the UIDs of a search to: it
    addresses messages by UID, whether it is given a list or a range. *)

Module Listing.
Import Js Mail.

Inductive Criterion : Type := UNSEEN | RECENT | ALL.

Inductive FetchSource : Type :=
| ByUids (uids : list N)
| ByRange (first last : Z).   (* the string [`${start}:${end}`] *)

Record Server : Type := mkServer {
  srv_openBox : jsstring -> Err + Z;          (* [box.messages.total] *)
  srv_search : Criterion -> Err + list N;
  srv_fetch : FetchSource -> list Message * option Err
}.

Definition INBOX : jsstring := lit "INBOX".

(** [array.slice(start)]. *)
Definition slice {A} (start : Z) (l : list A) : list A :=
  let len := Z.of_nat (length l) in
  let k := if (start <? 0)%Z then Z.max (len + start) 0 else Z.min start len in
  drop (Z.to_nat k) l.

Definition getMailList (srv : Server) (mailbox : jsstring) (limit : Z) : Err + list Message :=
  match srv_openBox srv mailbox with
  | inl err => inl err
  | inr total =>
    if (total =? 0)%Z then inr []
    else
      let start := Z.max 1 (total - limit + 1) in
      let end_ := total in
      match srv_fetch srv (ByRange start end_) with
      | (_, Some err) => inl err
      | (messages, None) => inr (sortDesc seqno messages)
      end
  end.

Definition searchMails (srv : Server) (mailbox : jsstring) (criteria : Criterion)
    (limit : Z) : Err + list Message :=
  match srv_openBox srv mailbox with
  | inl err => inl err
  | inr total =>
    if (total =? 0)%Z then inr []
    else
      match srv_search srv criteria with
      | inl err => inl err
      | inr [] => inr []
      | inr results =>
        let limitedResults := slice (- limit) results in
        match srv_fetch srv (ByUids limitedResults) with
        | (_, Some err) => inl err
        | (messages, None) => inr (sortDesc uidKey messages)
        end
      end
  end.

Inductive ListType : Type := Unread | Recent | All.

(** The [switch] of the [mailbot.list] action. *)
Definition listMessages (srv : Server) (type : ListType) (fetchLimit : Z)
    : Err + list Message :=
  match type with
  | Unread => searchMails srv INBOX UNSEEN fetchLimit
  | Recent => searchMails srv INBOX RECENT fetchLimit
  | All =>
    match searchMails srv INBOX ALL fetchLimit with
    | inr messages => inr messages
    | inl _ => getMailList srv INBOX fetchLimit
    end
  end.

(** A server that holds [folder] and honours what it is asked: it answers a
    search with the UIDs in folder order unless [searchError] is set, and a
    fetch with the messages whose UID is listed, or lies in the range, in
    folder order. *)
Definition inRange (first last : Z) (m : Message) : bool :=
  ((first <=? uidKey m) && (uidKey m <=? last))%Z.

Definition folderServer (folder : list Message) (searchError : option Err) : Server :=
  {| srv_openBox := λ _, inr (Z.of_nat (length folder));
     srv_search := λ _, match searchError with
                    | Some err => inl err
                    | None => inr (map uid folder)
                    end;
     srv_fetch := λ src,
       match src with
       | ByUids uids => (filter (λ m, uid m ∈ uids) folder, None)
       | ByRange first last => (filter (λ m, inRange first last m = true) folder, None)
       end |}.

(** Sequence numbers are the positions in the folder, from 1. *)
Definition numbered (folder : list Message) : Prop :=
  map seqno folder = map (λ i, Z.of_nat (S i)) (seq 0 (length folder)).

End Listing.

Import Js Regex Content Mail Watcher Dispatcher Listing.

(** ** Predicates and sample inputs of the statements *)

(** *** Strings and lines *)

(** Not empty and no white space in front. *)
Definition tight (s : jsstring) : Prop :=
  match s with
  | [] => False
  | c :: _ => isSpace c = false
  end.

Definition noLF (l : jsstring) : Prop := LF ∉ l.

(** The lines the loop of [cleanEmailContent] pushes: not blank, and
    sensitive or neither a separator nor a signature. *)
Definition keeps (line : jsstring) : bool :=
  negb (falsy line)
  && (hasImportantInfo line || (negb (isSeparator line) && negb (isEmailSignature line))).

Definition passwordLine : jsstring := lit "密码:Abc@123.xyz".

Definition passwordMail : jsstring :=
  lit "Your account is ready" ++ LF :: passwordLine ++ LF :: lit "Keep it safe".

Definition sampleMail : jsstring :=
  lit "Hi," ++ LF :: lit "Your code is 123456" ++ LF :: lit "--" ++ LF
  :: lit "John Doe" ++ LF :: lit "john@example.com".

(** *** Runs of the watcher *)

(** [rt'] has the ledger of [rt], no fetch pending that was not pending in
    [rt], and a log that extends that of [rt] by effects that neither fetch
    nor notify. *)
Definition quiet (rt rt' : Runtime) : Prop :=
  ledger rt' = ledger rt
  ∧ (∀ rid uids msgs, requests rt' !! rid = Some (ReqFetch uids msgs) →
       requests rt !! rid = Some (ReqFetch uids msgs))
  ∧ ∃ d, log rt' = log rt ++ d ∧ fetched d = [] ∧ notified d = [].

(** The events whose handlers are quiet. *)
Definition isQuiet (ev : Event) : bool :=
  match ev with
  | CallStop | OnSearch _ _ | OnMessage _ _ | OnFetchEnd _ => false
  | _ => true
  end.

Definition pendingFetch (rt : Runtime) (rid : N) (uids : list N) (msgs : list Message) : Prop :=
  requests rt !! rid = Some (ReqFetch uids msgs).

(** The invariant of a run of the later revision, over the effects [new]
    logged since the run began: a UID is fetched once and notified once, what
    was fetched or notified is in the ledger, a pending fetch holds each
    message once and only messages it asked for, what it asked for is in the
    ledger and not yet notified, and two pending fetches ask for different
    UIDs. *)
Record Owned (new : list Effect) (rt : Runtime) : Prop := mkOwned {
  own_fetched : NoDup (fetched new);
  own_notified : NoDup (notified new);
  own_fetched_ledger : ∀ u, u ∈ fetched new → u ∈ ledger rt;
  own_notified_ledger : ∀ u, u ∈ notified new → u ∈ ledger rt;
  own_pending : ∀ rid uids msgs, pendingFetch rt rid uids msgs →
    NoDup (map uid msgs)
    ∧ (∀ u, u ∈ map uid msgs → u ∈ uids)
    ∧ (∀ u, u ∈ uids → u ∈ ledger rt ∧ u ∉ notified new);
  own_disjoint : ∀ rid1 rid2 uids1 msgs1 uids2 msgs2,
    rid1 ≠ rid2 → pendingFetch rt rid1 uids1 msgs1 → pendingFetch rt rid2 uids2 msgs2 →
    ∀ u, u ∈ uids1 → u ∉ uids2
}.

Definition Inv (base : list Effect) (rt : Runtime) : Prop :=
  ∃ new, log rt = base ++ new ∧ Owned new rt.

(** A run is observed from a state in which no fetch is under way. *)
Definition noFetchPending (rt : Runtime) : Prop :=
  ∀ rid uids msgs, requests rt !! rid ≠ Some (ReqFetch uids msgs).

Definition neverStopped (evs : list Event) : bool :=
  forallb (λ ev, negb (isStop ev)) evs.

(** [rt'] keeps the ledger of [rt] and more, and what its log adds does
    not fetch a UID that the ledger of [rt] holds. *)
Definition unreserved (rt rt' : Runtime) : Prop :=
  (∀ u, u ∈ ledger rt → u ∈ ledger rt')
  ∧ ∃ d, log rt' = log rt ++ d ∧ ∀ u, u ∈ fetched d → u ∉ ledger rt.

(** After the connection dropped: one reconnect timer is armed, the session
    variable is cleared, the dead session has no listener left, and the
    ledger and the callback are the ones of before the drop. *)
Definition dropped (rt rt' : Runtime) (sid : N) : Prop :=
  log rt' = log rt ++ [SetTimeout (nextId rt) Reconnect reconnectDelay]
  ∧ timers rt' = <[nextId rt := Reconnect]> (timers rt)
  ∧ ledger rt' = ledger rt
  ∧ isMonitoring (vars rt') = true
  ∧ imap (vars rt') = None
  ∧ imapConfig (vars rt') = imapConfig (vars rt)
  ∧ nextId rt' = nextId rt + 1
  ∧ (∀ l, hasListener rt' sid l = false)
  ∧ onNewMailCallback (vars rt') = onNewMailCallback (vars rt).

Definition config0 : Config :=
  {| host := lit "imap.example.com"; port := 993; user := lit "bot";
     password := lit "secret"; tls := true |}.

Definition headers0 : Headers :=
  {| h_from := lit "alice@example.com"; h_to := lit "bot@example.com";
     h_subject := lit "hello"; h_date := lit "Mon, 02 Nov 2026 10:00:00 +0000";
     h_messageId := lit "<1@example.com>" |}.

Definition mail (n : Z) (u : N) : Message :=
  {| seqno := n; uid := u; headers := Some headers0; bodyText := Some (lit "hi") |}.

(** The watcher starts and opens the folder (one message, UID 7, unseen);
    before the answer to the first search arrives a mail event triggers a
    second detection pass; the two searches are answered, then the fetches
    they led to, in the order the commands were queued. *)
Definition raceTrace : list Event :=
  [ CallStart config0 0; OnReady 0; OnOpenBox 1 (inr 1%Z); OnMail 0 1;
    OnSearch 2 (inr [7]); OnSearch 4 (inr [7]);
    OnMessage 5 (mail 1 7); OnFetchEnd 5;
    OnMessage 6 (mail 1 7); OnFetchEnd 6 ].

(** The watcher starts, opens the folder, and fetches and notifies the one
    unseen message, UID 7. *)
Definition runningTrace : list Event :=
  [ CallStart config0 0; OnReady 0; OnOpenBox 1 (inr 1%Z);
    OnSearch 2 (inr [7]); OnMessage 4 (mail 1 7); OnFetchEnd 4 ].

(** *** Dispatcher *)

(** The send of [msg] does not fail with [null] or [undefined]. *)
Definition reasonGiven (w : World) (msg : Message) : Prop :=
  broadcast w msg ≠ SendThrows Nullish ∧ broadcast w msg ≠ SendRejects Nullish.

Definition sendFailure : Err := Error (lit "send failed").

(** The broadcast promise is rejected; the session is up and the server
    accepts every command. *)
Definition rejectingWorld : World :=
  {| broadcast := λ _, SendRejects (Raised sendFailure); sessionUp := λ _, true;
     addFlags := λ _, None; expunge := λ _, None |}.

(** *** Listing *)

(** Keys strictly increasing along the list. *)
Fixpoint ascending (key : Message -> Z) (l : list Message) : Prop :=
  match l with
  | [] => True
  | x :: l' => (∀ y, y ∈ l' → (key x < key y)%Z) ∧ ascending key l'
  end.

Definition threeMessages : list Message := [mail 1 11; mail 2 12; mail 3 15].

(** Three messages left in a folder from which others were removed. *)
Definition staleUids : list Message := [mail 1 2; mail 2 5; mail 3 9].

Definition searchRejected : Err := Error (lit "search rejected").

(** * Properties *)

(** ** Regular expressions: the fuel of the star is enough *)

Section RegexFacts.

(** A matcher only looks at its continuation on inputs that are not longer
    than its own. *)
Lemma matches_ext ignoreCase r : ∀ k k' prev s,
  (∀ p' s', (length s' ≤ length s)%nat → k p' s' = k' p' s') →
  matches ignoreCase r k prev s = matches ignoreCase r k' prev s.
Proof.
  induction r as [|c|p|r1 IH1 r2 IH2|r1 IH1 r2 IH2|r IH| | |]; intros k k' prev s H; simpl.
  - by apply H.
  - destruct s as [|x s]; [done|]. f_equal. apply H. simpl. lia.
  - destruct s as [|x s]; [done|]. f_equal. apply H. simpl. lia.
  - apply IH1. intros p' s' Hs. apply IH2. intros p'' s'' Hs'. apply H. lia.
  - f_equal; [by apply IH1|by apply IH2].
  - generalize (length s). intros n. revert prev s H.
    induction n as [|n IHn]; intros prev s H; simpl.
    + f_equal. by apply H.
    + f_equal; [by apply H|]. apply IH. intros p' s' Hs.
      destruct (length s' <? length s)%nat eqn:E; [|done]. simpl.
      apply IHn. intros p'' s'' Hs'. apply H. lia.
  - destruct prev; [done|]. by apply H.
  - destruct s; [|done]. by apply H.
  - f_equal. by apply H.
Qed.

Lemma iterate_false body fuel prev s :
  (∀ p' s', body (fun _ _ => false) p' s' = false) →
  (∀ k k' p' s', (∀ p'' s'', k p'' s'' = k' p'' s'') → body k p' s' = body k' p' s') →
  iterate body (fun _ _ => false) fuel prev s = false.
Proof.
  intros Hf Hext. revert prev s. induction fuel as [|n IH]; intros prev s; simpl; [done|].
  etrans; [|apply (Hf prev s)]. apply Hext. intros p'' s''. rewrite IH. apply andb_false_r.
Qed.

Lemma matches_false ignoreCase r : ∀ prev s,
  matches ignoreCase r (fun _ _ => false) prev s = false.
Proof.
  induction r as [|c|p|r1 IH1 r2 IH2|r1 IH1 r2 IH2|r IH| | |]; intros prev s; simpl; try done.
  - destruct s; [done|]. apply andb_false_r.
  - destruct s; [done|]. apply andb_false_r.
  - etrans; [|apply (IH1 prev s)]. apply matches_ext. intros. apply IH2.
  - by rewrite IH1, IH2.
  - apply iterate_false; [done|]. intros k k' p' s' H. apply matches_ext. intros. apply H.
  - by destruct prev.
  - by destruct s.
  - apply andb_false_r.
Qed.

Lemma matches_dead ignoreCase r k prev s :
  (∀ p' s', k p' s' = false) → matches ignoreCase r k prev s = false.
Proof.
  intros H. etrans; [|apply (matches_false ignoreCase r prev s)].
  apply matches_ext. intros. apply H.
Qed.

Lemma iterate_fuel ignoreCase r k : ∀ n m prev s,
  (length s ≤ n)%nat → (length s ≤ m)%nat →
  iterate (matches ignoreCase r) k n prev s = iterate (matches ignoreCase r) k m prev s.
Proof.
  assert (Hnil : ∀ n prev, iterate (matches ignoreCase r) k n prev [] = k prev []).
  { intros [|n] prev; simpl; [apply orb_false_r|].
    rewrite matches_dead; [apply orb_false_r|done]. }
  induction n as [|n IH]; intros m prev s Hn Hm.
  - destruct s; [|simpl in Hn; lia]. by rewrite !Hnil.
  - destruct m as [|m]; [destruct s; [by rewrite !Hnil|simpl in Hm; lia]|].
    simpl. f_equal. apply matches_ext. intros p' s' Hs.
    destruct (length s' <? length s)%nat eqn:E; [|done]. simpl.
    apply Nat.ltb_lt in E. apply IH; lia.
Qed.

(** The star is its own unfolding: more fuel would find no other match. *)
Lemma matches_star ignoreCase r k prev s :
  matches ignoreCase (Star r) k prev s
  = k prev s
    || matches ignoreCase r
         (fun prev' s' => (length s' <? length s)%nat && matches ignoreCase (Star r) k prev' s')
         prev s.
Proof.
  simpl. destruct s as [|c t]; simpl.
  - by rewrite matches_dead.
  - f_equal. apply matches_ext. intros p' s' Hs.
    destruct (length s' <? S (length t))%nat eqn:E; [|done]. simpl.
    apply Nat.ltb_lt in E. apply iterate_fuel; lia.
Qed.

End RegexFacts.

(** ** Strings *)

Section StringFacts.

Lemma tight_not_falsy s : tight s → falsy s = false.
Proof. by destruct s. Qed.

Lemma tight_app a b : tight a → tight (a ++ b).
Proof. destruct a; simpl; tauto. Qed.

Lemma trimStart_suffix s : ∃ pre, s = pre ++ trimStart s.
Proof.
  induction s as [|c s [pre IH]]; simpl.
  - by exists [].
  - destruct (isSpace c).
    + exists (c :: pre). simpl. by f_equal.
    + by exists [].
Qed.

Lemma trimStart_tight s : trimStart s ≠ [] → tight (trimStart s).
Proof.
  induction s as [|c s IH]; simpl; [done|].
  destruct (isSpace c) eqn:E; [done|]. intros _. exact E.
Qed.

Lemma trimStart_id s : tight s → trimStart s = s.
Proof. destruct s as [|c s]; simpl; [done|]. by intros ->. Qed.

Lemma trim_id s : tight s → tight (rev s) → trim s = s.
Proof.
  intros H1 H2. unfold trim, trimEnd.
  rewrite (trimStart_id s H1), (trimStart_id _ H2). apply rev_involutive.
Qed.

Lemma trim_tight s : trim s ≠ [] → tight (trim s) ∧ tight (rev (trim s)).
Proof.
  unfold trim, trimEnd. intros Hne.
  set (t := trimStart s) in *. set (u := trimStart (rev t)) in *.
  assert (Hu : u ≠ []) by (intros E; apply Hne; by rewrite E).
  rewrite rev_involutive. split; [|by apply trimStart_tight].
  destruct (trimStart_suffix (rev t)) as [pre Hpre]. fold u in Hpre.
  assert (Ht : t = rev u ++ rev pre).
  { rewrite <- rev_app_distr, <- Hpre. by rewrite rev_involutive. }
  assert (Htt : tight t).
  { apply trimStart_tight. change (t ≠ []). rewrite Ht. intros E.
    apply app_eq_nil in E as [E _]. apply Hne. exact E. }
  rewrite Ht in Htt. destruct (rev u) as [|c r] eqn:E; [done|]. exact Htt.
Qed.

Lemma trim_incl s c : c ∈ trim s → c ∈ s.
Proof.
  unfold trim, trimEnd. intros H. apply list_elem_of_In, in_rev in H.
  destruct (trimStart_suffix (rev (trimStart s))) as [p1 H1].
  destruct (trimStart_suffix s) as [p2 H2].
  rewrite H2. apply elem_of_app. right.
  apply list_elem_of_In, in_rev. rewrite H1. apply in_or_app. by right.
Qed.

Lemma split_lines_nonempty s : split_lines s ≠ [].
Proof. destruct s as [|c s]; simpl; [done|]. destruct (c =? LF); [done|]. by destruct (split_lines s). Qed.

Lemma split_lines_noLF s : Forall noLF (split_lines s).
Proof.
  induction s as [|c s IH]; simpl.
  - constructor; [|constructor]. unfold noLF. by intros ?%elem_of_nil.
  - destruct (N.eqb_spec c LF) as [->|Hc].
    + constructor; [|done]. unfold noLF. by intros ?%elem_of_nil.
    + destruct (split_lines s) as [|l ls] eqn:E; [by destruct (split_lines_nonempty s)|].
      inversion IH as [|? ? Hl Hls]; subst. constructor; [|done].
      unfold noLF in *. intros [E'|?]%elem_of_cons; [by destruct Hc|done].
Qed.

Lemma split_lines_line l : noLF l → split_lines l = [l].
Proof.
  unfold noLF. induction l as [|c l IH]; simpl; [done|]. intros H.
  destruct (N.eqb_spec c LF) as [->|Hc].
  - destruct H. by left.
  - rewrite IH; [done|]. intros ?. apply H. by right.
Qed.

Lemma split_lines_app l s : noLF l → split_lines (l ++ LF :: s) = l :: split_lines s.
Proof.
  unfold noLF. induction l as [|c l IH]; simpl; [done|]. intros H.
  destruct (N.eqb_spec c LF) as [->|Hc].
  - destruct H. by left.
  - rewrite IH; [done|]. intros ?. apply H. by right.
Qed.

Lemma split_join ks : ks ≠ [] → Forall noLF ks → split_lines (join_lines ks) = ks.
Proof.
  induction ks as [|l ks IH]; [done|]. intros _ H.
  inversion H as [|? ? Hl Hks]; subst.
  destruct ks as [|k ks]; simpl.
  - by apply split_lines_line.
  - rewrite split_lines_app by done. f_equal. by apply IH.
Qed.

Lemma join_tight ks :
  ks ≠ [] → Forall (λ l, tight l ∧ tight (rev l)) ks →
  tight (join_lines ks) ∧ tight (rev (join_lines ks)).
Proof.
  induction ks as [|l ks IH]; [done|]. intros _ H.
  inversion H as [|? ? [Hl1 Hl2] Hks]; subst.
  destruct ks as [|k ks]; [done|].
  destruct IH as [_ IH2]; [done|done|].
  change (join_lines (l :: k :: ks)) with (l ++ LF :: join_lines (k :: ks)).
  split; [by apply tight_app|].
  rewrite rev_app_distr. simpl rev at 1. rewrite <- app_assoc. by apply tight_app.
Qed.

End StringFacts.

(** ** Content pipeline *)

Section ContentFacts.

Lemma falsy_false_length line : falsy line = false → (0 <? length line)%nat = true.
Proof. by destruct line. Qed.

Lemma scanLines_acc lines acc : scanLines lines acc = acc ++ scanLines lines [].
Proof.
  revert acc. induction lines as [|line rest IH]; intros acc; simpl.
  - by rewrite app_nil_r.
  - destruct (falsy line) eqn:Ef; [apply IH|].
    rewrite (falsy_false_length _ Ef).
    destruct (hasImportantInfo line).
    { rewrite (IH (acc ++ [line])), (IH [line]). by rewrite <- app_assoc. }
    destruct (isSeparator line); [by rewrite app_nil_r|].
    destruct (isEmailSignature line); [by rewrite app_nil_r|].
    rewrite (IH (acc ++ [line])), (IH [line]). by rewrite <- app_assoc.
Qed.

Lemma scanLines_kept lines :
  Forall (λ l, keeps l = true ∧ l ∈ lines) (scanLines lines []).
Proof.
  induction lines as [|line rest IH]; simpl; [constructor|].
  assert (Hrest : Forall (λ l, keeps l = true ∧ l ∈ line :: rest) (scanLines rest [])).
  { eapply Forall_impl; [exact IH|]. intros l [? ?]. split; [done|]. by right. }
  unfold keeps at 1.
  destruct (falsy line) eqn:Ef; [done|].
  rewrite (falsy_false_length _ Ef).
  destruct (hasImportantInfo line) eqn:Ei.
  { rewrite scanLines_acc. constructor; [|done]. split; [|by left].
    unfold keeps. by rewrite Ef, Ei. }
  destruct (isSeparator line) eqn:Es; [constructor|].
  destruct (isEmailSignature line) eqn:Ee; [constructor|].
  rewrite scanLines_acc. constructor; [|done]. split; [|by left].
  unfold keeps. by rewrite Ef, Ei, Es, Ee.
Qed.

Lemma scanLines_all lines :
  Forall (λ l, keeps l = true) lines → scanLines lines [] = lines.
Proof.
  induction 1 as [|line rest Hk _ IH]; simpl; [done|].
  unfold keeps in Hk.
  destruct (falsy line) eqn:Ef; [done|].
  rewrite (falsy_false_length _ Ef).
  destruct (hasImportantInfo line).
  { rewrite scanLines_acc, IH. done. }
  simpl in Hk. apply andb_prop in Hk as [Hs He].
  apply negb_true_iff in Hs, He. rewrite Hs, He.
  rewrite scanLines_acc, IH. done.
Qed.

Lemma keeps_nonempty l : keeps l = true → l ≠ [].
Proof. by destruct l. Qed.

End ContentFacts.

Section ContentResults.

(** A line the sensitive pattern matches is pushed and the loop goes on
    with the next line, whatever the separator and signature patterns say. *)
Lemma sensitive_line_kept line rest coreContent :
  falsy line = false → hasImportantInfo line = true →
  scanLines (line :: rest) coreContent = scanLines rest (coreContent ++ [line]).
Proof. intros Hf Hi. simpl. by rewrite Hf, Hi. Qed.

(** The literals are read as UTF-16 code units, and the patterns behave as
    the regular expressions of the source on a few lines. *)
Example lit_native_terms :
  lit "密码" = [0x5BC6; 0x7801] ∧ lit "验证码" = [0x9A8C; 0x8BC1; 0x7801].
Proof. split; reflexivity. Qed.

Example sensitive_pattern_samples :
  hasImportantInfo (lit "Your CODE is 123456") = true
  ∧ hasImportantInfo (lit "reset your password now") = true
  ∧ hasImportantInfo (lit "barcode 42") = false
  ∧ hasImportantInfo (lit "key_id") = false
  ∧ hasImportantInfo (lit "x密码1") = true.
Proof. vm_compute. done. Qed.

Example separator_pattern_samples :
  isSeparator (lit "|||") = true ∧ isSeparator (lit "| |") = true
  ∧ isSeparator (lit "-----") = true ∧ isSeparator (lit "- item") = false
  ∧ isEmailSignature (lit "john@example.com") = true
  ∧ isEmailSignature (lit "From: john@example.com") = true
  ∧ isEmailSignature (lit "write to john@example.com") = false
  ∧ isEmailSignature (lit "john@example") = false.
Proof. vm_compute. done. Qed.

(** C2: a line that contains the native word for password is not matched
    by the sensitive pattern, because a word boundary next to an ideograph
    needs an ASCII word character on its other side; the line has the shape
    of a bare address, so the scan stops there and the line and everything
    after it are lost.  The same line with the English word is kept. *)
Theorem native_password_line_dropped :
  hasImportantInfo passwordLine = false
  ∧ isEmailSignature passwordLine = true
  ∧ cleanEmailContent passwordLine = []
  ∧ cleanEmailContent passwordMail = lit "Your account is ready"
  ∧ hasImportantInfo (lit "password:Abc@123.xyz") = true
  ∧ cleanEmailContent (lit "password:Abc@123.xyz") = lit "password:Abc@123.xyz".
Proof. vm_compute. done. Qed.

(** C4: the sample cleans to its first two lines; the second line is kept as
    sensitive and the scan stops at the line of dashes. *)
Theorem cleanEmailContent_sample :
  cleanEmailContent sampleMail = lit "Hi," ++ LF :: lit "Your code is 123456"
  ∧ hasImportantInfo (lit "Your code is 123456") = true
  ∧ isSeparator (lit "--") = true
  ∧ scanLines (map trim (split_lines sampleMail)) []
    = [lit "Hi,"; lit "Your code is 123456"].
Proof. vm_compute. done. Qed.

(** C5: cleaning is idempotent. *)
Theorem cleanEmailContent_idempotent (text : jsstring) :
  cleanEmailContent (cleanEmailContent text) = cleanEmailContent text.
Proof.
  unfold cleanEmailContent at 2 3.
  destruct (falsy text) eqn:Et; [reflexivity|]. cbv zeta.
  set (ks := scanLines (map trim (split_lines text)) []).
  destruct ks as [|k0 ks'] eqn:Eks; [reflexivity|].
  assert (Hks : Forall (λ l, keeps l = true ∧ tight l ∧ tight (rev l) ∧ noLF l) ks).
  { pose proof (scanLines_kept (map trim (split_lines text))) as H. fold ks in H.
    eapply Forall_impl; [exact H|]. intros l [Hk Hin].
    apply list_elem_of_fmap in Hin as [x [-> Hx]].
    destruct (trim_tight x) as [? ?]; [by apply keeps_nonempty|].
    repeat split; try done.
    pose proof (split_lines_noLF text) as Hn.
    rewrite Forall_forall in Hn. intros Hlf. apply (Hn x Hx). by apply trim_incl. }
  rewrite <- Eks in *.
  assert (Hne : ks ≠ []) by (by rewrite Eks).
  destruct (join_tight ks Hne) as [Hj1 Hj2].
  { eapply Forall_impl; [exact Hks|]. by intros l (?&?&?&?). }
  rewrite (trim_id _ Hj1 Hj2).
  unfold cleanEmailContent. rewrite (tight_not_falsy _ Hj1). cbv zeta.
  rewrite split_join; [|done|].
  2:{ eapply Forall_impl; [exact Hks|]. by intros l (?&?&?&?). }
  assert (Hmap : map trim ks = ks).
  { clear -Hks. induction Hks as [|l ls [_ [H1 [H2 _]]] _ IH]; simpl; [done|].
    by rewrite trim_id, IH. }
  rewrite Hmap, scanLines_all.
  - by apply trim_id.
  - eapply Forall_impl; [exact Hks|]. by intros l (?&?&?&?).
Qed.

End ContentResults.

(** ** Watcher *)

Section WatcherFacts.

Lemma fetched_app l1 l2 : fetched (l1 ++ l2) = fetched l1 ++ fetched l2.
Proof. unfold fetched. by rewrite map_app, concat_app. Qed.

Lemma notified_app l1 l2 : notified (l1 ++ l2) = notified l1 ++ notified l2.
Proof. unfold notified. by rewrite map_app, concat_app. Qed.

Lemma quiet_refl rt : quiet rt rt.
Proof. repeat split; [done|]. exists []. by rewrite app_nil_r. Qed.

Lemma quiet_trans rt1 rt2 rt3 : quiet rt1 rt2 → quiet rt2 rt3 → quiet rt1 rt3.
Proof.
  intros (L1 & R1 & d1 & E1 & F1 & N1) (L2 & R2 & d2 & E2 & F2 & N2).
  split; [congruence|]. split; [auto|].
  exists (d1 ++ d2). rewrite E2, E1, <- app_assoc, fetched_app, notified_app, F1, F2, N1, N2. done.
Qed.

Ltac rt_simpl :=
  cbn [vars timers listeners promises requests nextId log
       imap isMonitoring reconnectTimer pollTimer lastMailCount imapConfig
       onNewMailCallback lastCheckedUids
       with_vars set_imap set_isMonitoring set_reconnectTimer set_pollTimer
       set_lastMailCount set_start set_lastCheckedUids set_timers set_listeners
       set_promises set_requests bump emit ledger
       dropListener removeAllListeners addListener clearTimeout] in *.

Ltac lookup_cases :=
  repeat match goal with
  | H : <[_:=_]> _ !! _ = Some _ |- _ => apply lookup_insert_Some in H as [[? H]|[? H]]
  | H : delete _ _ !! _ = Some _ |- _ => apply lookup_delete_Some in H as [? H]
  end; try discriminate; try assumption.

Ltac quiet_prim :=
  unfold quiet; rt_simpl;
  split; [reflexivity|]; split;
  [ intros ? ? ? ?; lookup_cases
  | first [ by (exists []; rewrite app_nil_r)
          | eexists; split; [ rewrite <- ?app_assoc; reflexivity | by split ] ] ].

Ltac quiet_cases := repeat (rt_simpl; case_match); try apply quiet_refl; try quiet_prim.

Lemma quiet_fetchLatestUnread rt : quiet rt (fetchLatestUnread rt).
Proof. unfold fetchLatestUnread. quiet_cases. Qed.

Lemma quiet_startPolling rt : quiet rt (startPolling rt).
Proof. unfold startPolling. quiet_cases. Qed.

Lemma quiet_handleDisconnect rt : quiet rt (handleDisconnect rt).
Proof. unfold handleDisconnect. quiet_cases. Qed.

Lemma quiet_resolvePromise p rt : quiet rt (resolvePromise p rt).
Proof. unfold resolvePromise. quiet_cases. Qed.

Lemma quiet_rejectPromise p e rt : quiet rt (rejectPromise p e rt).
Proof. unfold rejectPromise, rejected. quiet_cases. Qed.

Lemma quiet_connectToMailMonitor a rt : quiet rt (connectToMailMonitor a rt).
Proof. unfold connectToMailMonitor, rejected. quiet_cases. Qed.

Lemma quiet_openBoxAndListen p rt : quiet rt (openBoxAndListen p rt).
Proof. unfold openBoxAndListen, rejectPromise, rejected. quiet_cases. Qed.

Lemma quiet_openBoxCallback rid res rt : quiet rt (openBoxCallback rid res rt).
Proof.
  unfold openBoxCallback, rejectPromise, rejected, resolvePromise, startPolling, fetchLatestUnread.
  quiet_cases.
Qed.

Lemma quiet_timerCallback k rt : quiet rt (timerCallback k rt).
Proof.
  unfold timerCallback, connectToMailMonitor, rejected, startPolling, fetchLatestUnread.
  quiet_cases.
Qed.

Lemma quiet_startMailMonitor c cb rt : quiet rt (startMailMonitor c cb rt).
Proof. unfold startMailMonitor, connectToMailMonitor, rejected. quiet_cases. Qed.

Lemma insertDesc_perm key x l : insertDesc key x l ≡ₚ x :: l.
Proof.
  induction l as [|y l IH]; simpl; [done|].
  destruct (key x <? key y)%Z; [|done].
  rewrite IH. apply Permutation_swap.
Qed.

Lemma sortDesc_perm key l : sortDesc key l ≡ₚ l.
Proof.
  induction l as [|x l IH]; simpl; [done|].
  rewrite insertDesc_perm. by f_equiv.
Qed.

Lemma Inv_quiet base rt rt' : quiet rt rt' → Inv base rt → Inv base rt'.
Proof.
  intros (L & R & d & E & F & Nf) (new & Hlog & [H1 H2 H3 H4 H5 H6]).
  exists (new ++ d). split; [by rewrite E, Hlog, app_assoc|].
  unfold pendingFetch in *.
  split; rewrite ?fetched_app, ?notified_app, ?F, ?Nf, ?app_nil_r, ?L; eauto.
Qed.

Lemma Inv_searchCallback base result rt :
  match result with inr results => NoDup results | inl _ => True end →
  Inv base rt → Inv base (searchCallback Later result rt).
Proof.
  intros Hres HI. unfold searchCallback.
  destruct result as [err|results]; [done|].
  destruct results as [|r0 results']; [done|].
  set (results := r0 :: results') in *.
  set (newUids := filter (λ uid, uid ∉ lastCheckedUids (vars rt)) results).
  assert (Hnd : NoDup newUids) by (by apply NoDup_filter).
  assert (Hfresh : ∀ u, u ∈ newUids → u ∉ ledger rt).
  { intros u Hu. by apply list_elem_of_filter in Hu as [? _]. }
  clearbody newUids. destruct newUids as [|n0 newUids']; [done|].
  set (newUids := n0 :: newUids') in *. clearbody newUids.
  destruct HI as (new & Hlog & [H1 H2 H3 H4 H5 H6]).
  rt_simpl. unfold pendingFetch in *.
  destruct (imap (vars rt)) as [sid|] eqn:Ei.
  - exists (new ++ [Fetch sid (nextId rt) newUids]). rt_simpl.
    split; [by rewrite Hlog, app_assoc|].
    assert (Hf : fetched (new ++ [Fetch sid (nextId rt) newUids]) = fetched new ++ newUids).
    { rewrite fetched_app. unfold fetched at 2. simpl. by rewrite app_nil_r. }
    assert (Hn : notified (new ++ [Fetch sid (nextId rt) newUids]) = notified new).
    { rewrite notified_app. unfold notified at 2. simpl. by rewrite app_nil_r. }
    split; unfold pendingFetch; rt_simpl; rewrite ?Hf, ?Hn.
    + apply NoDup_app. split_and!; [done| |done].
      intros u Hu Hu'. apply (Hfresh u Hu'). by apply H3.
    + done.
    + intros u [Hu|Hu]%elem_of_app; apply elem_of_union.
      * left. by apply H3.
      * right. by apply elem_of_list_to_set.
    + intros u Hu. apply elem_of_union. left. by apply H4.
    + intros rid uids msgs Hp. lookup_cases.
      * injection Hp as <- <-. split_and!; [constructor|by intros ? ?%elem_of_nil|].
        intros u Hu. split.
        -- apply elem_of_union. right. by apply elem_of_list_to_set.
        -- intros Hn'. apply (Hfresh u Hu). by apply H4.
      * destruct (H5 _ _ _ Hp) as (? & ? & Hl). split_and!; [done|done|].
        intros u Hu. destruct (Hl u Hu). split; [|done]. apply elem_of_union. by left.
    + intros rid1 rid2 uids1 msgs1 uids2 msgs2 Hne Hp1 Hp2 u Hu1 Hu2.
      lookup_cases.
      * congruence.
      * injection Hp2 as <- <-. apply (Hfresh u Hu2).
        by destruct (H5 _ _ _ Hp1) as (_ & _ & Hl); destruct (Hl u Hu1).
      * injection Hp1 as <- <-. apply (Hfresh u Hu1).
        by destruct (H5 _ _ _ Hp2) as (_ & _ & Hl); destruct (Hl u Hu2).
      * by eapply (H6 rid1 rid2).
  - exists (new ++ [Uncaught]). rt_simpl.
    split; [by rewrite Hlog, app_assoc|].
    assert (Hf : fetched (new ++ [Uncaught]) = fetched new).
    { rewrite fetched_app. unfold fetched at 2. simpl. by rewrite app_nil_r. }
    assert (Hn : notified (new ++ [Uncaught]) = notified new).
    { rewrite notified_app. unfold notified at 2. simpl. by rewrite app_nil_r. }
    split; unfold pendingFetch; rt_simpl; rewrite ?Hf, ?Hn; try done.
    + intros u Hu. apply elem_of_union. left. by apply H3.
    + intros u Hu. apply elem_of_union. left. by apply H4.
    + intros rid uids msgs Hp.
      destruct (H5 _ _ _ Hp) as (? & ? & Hl). split_and!; [done|done|].
      intros u Hu. destruct (Hl u Hu). split; [|done]. apply elem_of_union. by left.
Qed.

Lemma Inv_messageCallback base rid msg rt :
  answers rt (OnMessage rid msg) = true →
  Inv base rt → Inv base (messageCallback Later rid msg rt).
Proof.
  unfold answers, messageCallback. intros Hans (new & Hlog & [H1 H2 H3 H4 H5 H6]).
  destruct (requests rt !! rid) as [[p| |uids messages]|] eqn:Er;
    try (by exists new; split).
  apply andb_prop in Hans as [Hin Hnot].
  apply bool_decide_eq_true in Hin, Hnot.
  exists new. split; [done|]. unfold pendingFetch in *.
  destruct (H5 _ _ _ Er) as (Hnd & Hsub & Hl).
  split; unfold pendingFetch; rt_simpl; try done.
  - intros rid' uids' msgs' Hp. lookup_cases; [|by apply (H5 rid')].
    injection Hp as <- <-. split_and!; [| |done].
    + rewrite map_app. apply NoDup_app. split_and!; [done| |by apply NoDup_singleton].
      intros u Hu Hx%list_elem_of_singleton. by subst.
    + rewrite map_app. intros u [Hu|Hx%list_elem_of_singleton]%elem_of_app; [auto|by subst].
  - intros rid1 rid2 uids1 msgs1 uids2 msgs2 Hne Hp1 Hp2.
    lookup_cases.
    + congruence.
    + injection Hp2 as <- <-. by eapply (H6 rid1 rid).
    + injection Hp1 as <- <-. by eapply (H6 rid rid2).
    + by eapply (H6 rid1 rid2).
Qed.

Lemma Inv_fetchEnd base rid rt : Inv base rt → Inv base (fetchEnd rid rt).
Proof.
  unfold fetchEnd. intros (new & Hlog & [H1 H2 H3 H4 H5 H6]).
  destruct (requests rt !! rid) as [[p| |uids messages]|] eqn:Er;
    try (by exists new; split).
  unfold pendingFetch in *.
  destruct (H5 _ _ _ Er) as (Hnd & Hsub & Hl).
  assert (Hdel : Owned new (set_requests rt (delete rid (requests rt)))).
  { split; unfold pendingFetch; rt_simpl; try done.
    - intros rid' uids' msgs' Hp. lookup_cases. by apply (H5 rid').
    - intros rid1 rid2 uids1 msgs1 uids2 msgs2 Hne Hp1 Hp2. lookup_cases.
      by eapply (H6 rid1 rid2). }
  destruct messages as [|m0 messages']; [by exists new|].
  set (messages := m0 :: messages') in *. clearbody messages. rt_simpl.
  destruct (onNewMailCallback (vars rt)) as [cb|]; [|by exists new].
  exists (new ++ [Notify cb (sortDesc seqno messages)]). rt_simpl.
  split; [by rewrite Hlog, app_assoc|].
  assert (Hf : fetched (new ++ [Notify cb (sortDesc seqno messages)]) = fetched new).
  { rewrite fetched_app. unfold fetched at 2. simpl. by rewrite app_nil_r. }
  assert (Hn : notified (new ++ [Notify cb (sortDesc seqno messages)])
               = notified new ++ map uid (sortDesc seqno messages)).
  { rewrite notified_app. unfold notified at 2. simpl. by rewrite app_nil_r. }
  assert (Hperm : map uid (sortDesc seqno messages) ≡ₚ map uid messages).
  { apply Permutation_map, sortDesc_perm. }
  split; unfold pendingFetch; rt_simpl; rewrite ?Hf, ?Hn; try done.
  - apply NoDup_app. split_and!; [done| |by rewrite Hperm].
    intros u Hu Hu'. rewrite Hperm in Hu'.
    by destruct (Hl u (Hsub u Hu')).
  - intros u [Hu|Hu]%elem_of_app; [by apply H4|].
    rewrite Hperm in Hu. by destruct (Hl u (Hsub u Hu)).
  - intros rid' uids' msgs' Hp. lookup_cases.
    destruct (H5 _ _ _ Hp) as (? & ? & Hl'). split_and!; [done|done|].
    intros u Hu. destruct (Hl' u Hu) as [? ?]. split; [done|].
    intros [Hu'|Hu']%elem_of_app; [done|].
    rewrite Hperm in Hu'. by apply (H6 rid' rid _ _ _ _ ltac:(done) Hp Er u Hu), Hsub.
  - intros rid1 rid2 uids1 msgs1 uids2 msgs2 Hne Hp1 Hp2. lookup_cases.
    by eapply (H6 rid1 rid2).
Qed.

Lemma quiet_step rev rt ev : isQuiet ev = true → quiet rt (step rev rt ev).
Proof.
  destruct ev; try done; intros _; unfold step.
  - apply quiet_startMailMonitor.
  - case_match; [|apply quiet_refl].
    eapply quiet_trans; [|apply quiet_openBoxAndListen]. quiet_prim.
  - case_match; [|quiet_prim].
    eapply quiet_trans; [|apply quiet_rejectPromise].
    eapply quiet_trans; [|apply quiet_handleDisconnect]. quiet_prim.
  - case_match; [|apply quiet_refl].
    eapply quiet_trans; [|apply quiet_handleDisconnect]. quiet_prim.
  - case_match; [apply quiet_fetchLatestUnread|apply quiet_refl].
  - case_match; [|apply quiet_refl].
    eapply quiet_trans; [|apply quiet_timerCallback]. quiet_prim.
  - apply quiet_openBoxCallback.
  - apply quiet_refl.
Qed.

Lemma Inv_step base rt ev :
  isStop ev = false → answers rt ev = true →
  Inv base rt → Inv base (step Later rt ev).
Proof.
  intros Hs Ha HI.
  destruct (isQuiet ev) eqn:Eq.
  { eapply Inv_quiet; [by apply quiet_step|done]. }
  destruct ev; try done; unfold step.
  - destruct (requests rt !! request) as [[p| |uids messages]|] eqn:Er; try done.
    apply Inv_searchCallback.
    + simpl in Ha. destruct result; [done|]. by apply bool_decide_eq_true in Ha.
    + eapply Inv_quiet; [|done]. quiet_prim.
  - by apply Inv_messageCallback.
  - by apply Inv_fetchEnd.
Qed.

Lemma Inv_run base evs : ∀ rt,
  neverStopped evs = true → wellBehaved Later rt evs = true →
  Inv base rt → Inv base (run Later rt evs).
Proof.
  induction evs as [|ev evs IH]; intros rt Hs Hw HI; [done|].
  simpl in Hs, Hw. apply andb_prop in Hs as [Hs1 Hs2]. apply andb_prop in Hw as [Hw1 Hw2].
  apply negb_true_iff in Hs1.
  simpl. apply IH; [done|done|]. by apply Inv_step.
Qed.

Lemma Inv_start rt : noFetchPending rt → Inv (log rt) rt.
Proof.
  intros H. exists []. split; [by rewrite app_nil_r|].
  split; unfold pendingFetch; try (by constructor); try (by intros ? ?%elem_of_nil).
  - intros rid uids msgs Hp. by destruct (H rid uids msgs).
  - intros rid1 rid2 uids1 msgs1 uids2 msgs2 _ Hp. by destruct (H rid1 uids1 msgs1).
Qed.

Lemma isMonitoring_false_timerCallback kind rt :
  isMonitoring (vars rt) = false → timerCallback kind rt = rt.
Proof. intros H. unfold timerCallback. by rewrite H; destruct kind. Qed.

Lemma stop_not_monitoring rt : isMonitoring (vars (stopMailMonitor rt)) = false.
Proof. unfold stopMailMonitor. by repeat (rt_simpl; case_match). Qed.

(** C6: after [stopMailMonitor] the watcher is not monitoring, the timers
    it held are cancelled and no longer armed, the session is ended and the
    ledger is empty; a poll or reconnect callback that still runs does
    nothing: no search, no timer, no connection attempt. *)
Theorem timers_inert_after_stop (rev : Revision) (rt : Runtime) :
  let rt' := stopMailMonitor rt in
  (isMonitoring (vars rt') = false ∧ reconnectTimer (vars rt') = None
   ∧ pollTimer (vars rt') = None ∧ imap (vars rt') = None ∧ ledger rt' = ∅)
  ∧ log rt' = log rt ++ option_list (ClearTimeout <$> reconnectTimer (vars rt))
                     ++ option_list (ClearTimeout <$> pollTimer (vars rt))
                     ++ option_list (EndSession <$> imap (vars rt))
  ∧ (reconnectTimer (vars rt) ≫= (λ t, timers rt' !! t)) = None
  ∧ (pollTimer (vars rt) ≫= (λ t, timers rt' !! t)) = None
  ∧ (∀ kind, timerCallback kind rt' = rt')
  ∧ (∀ tid, let rt'' := step rev rt' (OnTimer tid) in
            log rt'' = log rt' ∧ vars rt'' = vars rt'
            ∧ requests rt'' = requests rt' ∧ promises rt'' = promises rt'
            ∧ listeners rt'' = listeners rt').
Proof.
  intros rt'. split_and!.
  - apply stop_not_monitoring.
  - unfold rt', stopMailMonitor. by repeat (rt_simpl; case_match).
  - unfold rt', stopMailMonitor. by repeat (rt_simpl; case_match).
  - unfold rt', stopMailMonitor. by repeat (rt_simpl; case_match).
  - unfold rt', stopMailMonitor. by repeat (rt_simpl; case_match).
  - unfold rt', stopMailMonitor.
    destruct (reconnectTimer (vars rt)) as [t1|] eqn:E1;
      destruct (pollTimer (vars rt)) as [t2|] eqn:E2;
      destruct (imap (vars rt)) as [s|] eqn:E3; rt_simpl;
      rewrite ?E1, ?E2, ?E3; rt_simpl; rewrite ?E2, ?E3; rt_simpl; rewrite ?E3; rt_simpl;
      simpl; rewrite <- ?app_assoc, ?app_nil_r; done.
  - unfold rt', stopMailMonitor.
    destruct (reconnectTimer (vars rt)) as [t1|] eqn:E1; [|done].
    cbn [mbind option_bind].
    destruct (pollTimer (vars rt)) as [t2|] eqn:E2;
      destruct (imap (vars rt)) as [s|] eqn:E3; rt_simpl;
      rewrite ?E1, ?E2, ?E3; rt_simpl; rewrite ?E2, ?E3; rt_simpl; rewrite ?E3; rt_simpl;
      rewrite ?lookup_delete_None; auto.
  - unfold rt', stopMailMonitor.
    destruct (pollTimer (vars rt)) as [t2|] eqn:E2; [|done].
    cbn [mbind option_bind].
    destruct (reconnectTimer (vars rt)) as [t1|] eqn:E1;
      destruct (imap (vars rt)) as [s|] eqn:E3; rt_simpl;
      rewrite ?E1, ?E2, ?E3; rt_simpl; rewrite ?E2, ?E3; rt_simpl; rewrite ?E3; rt_simpl;
      rewrite ?lookup_delete_None; auto.
  - intros kind. apply isMonitoring_false_timerCallback, stop_not_monitoring.
  - intros tid rt''. unfold rt'', step.
    destruct (timers rt' !! tid); [|done].
    rewrite isMonitoring_false_timerCallback; [done|]. apply stop_not_monitoring.
Qed.

(** C8: when every UID the search lists is in the ledger already (or it
    lists none), the search callback changes nothing: the log gains no
    fetch and no call of the notification callback, and no fetch is left
    pending that could notify later. *)
Theorem no_new_uid_no_fetch (rev : Revision) (rt : Runtime) (rid : N) (results : list N) :
  (∀ u, u ∈ results → u ∈ ledger rt) →
  searchCallback rev (inr results) rt = rt
  ∧ let rt' := step rev rt (OnSearch rid (inr results)) in
    log rt' = log rt ∧ vars rt' = vars rt
    ∧ ∀ r uids msgs, requests rt' !! r = Some (ReqFetch uids msgs) →
                     requests rt !! r = Some (ReqFetch uids msgs).
Proof.
  intros Hall.
  assert (Hcb : ∀ rt0, ledger rt0 = ledger rt → searchCallback rev (inr results) rt0 = rt0).
  { intros rt0 Hl. unfold searchCallback. destruct results as [|r0 rs]; [done|].
    assert (Hf : filter (λ uid, uid ∉ lastCheckedUids (vars rt0)) (r0 :: rs) = []).
    { apply elem_of_nil_inv. intros u [Hn Hu]%list_elem_of_filter. apply Hn.
      change (u ∈ ledger rt0). rewrite Hl. by apply Hall. }
    by rewrite Hf. }
  split; [by apply Hcb|].
  unfold step. destruct (requests rt !! rid) as [[p| |uids messages]|] eqn:Er;
    try (by split_and!).
  rewrite Hcb by done. rt_simpl. split_and!; [done|done|].
  intros r uids msgs Hp. by lookup_cases.
Qed.

Lemma hasListener_intro rt sid l : (sid, l) ∈ listeners rt → hasListener rt sid l = true.
Proof. intros H. unfold hasListener. by apply bool_decide_eq_true. Qed.

Ltac has_listener :=
  rewrite hasListener_intro
    by (rt_simpl; rewrite ?list_elem_of_filter, ?elem_of_app, ?list_elem_of_singleton;
        intuition (auto; congruence)).

(** C10: when the first connection attempt of [startMailMonitor] fails,
    by a connection error or because the folder cannot be opened, the error
    is rethrown and [isMonitoring] is false again, so the status reports that
    the watcher is not running and the next start makes a new attempt. *)
Theorem failed_start_leaves_watcher_stopped
    (rev : Revision) (rt : Runtime) (config : Config) (onNewMail : N) (err : Err) :
  isMonitoring (vars rt) = false →
  let sid := nextId rt in
  let rt1 := step rev rt (CallStart config onNewMail) in
  let rt2 := step rev rt1 (OnError sid err) in
  let rt3 := step rev (step rev rt1 (OnReady sid)) (OnOpenBox (sid + 1) (inl err)) in
  (isMonitoring (vars rt1) = true ∧ log rt1 = log rt ++ [Connect sid])
  ∧ (log rt2 = log rt1 ++ [SetTimeout (sid + 1) Reconnect reconnectDelay; StartThrows err]
     ∧ (getMonitorStatus rt2).1 = false
     ∧ ∀ config' onNewMail',
         log (step rev rt2 (CallStart config' onNewMail'))
         = log rt2 ++ [Connect (nextId rt2)])
  ∧ (log rt3 = log rt1 ++ [OpenBox sid (sid + 1); StartThrows err]
     ∧ (getMonitorStatus rt3).1 = false
     ∧ ∀ config' onNewMail',
         log (step rev rt3 (CallStart config' onNewMail'))
         = log rt3 ++ [Connect (nextId rt3)]).
Proof.
  intros Hidle sid rt1 rt2 rt3.
  assert (E1 : rt1 = connectToMailMonitor AwaitStart (set_start rt config onNewMail)).
  { unfold rt1, step, startMailMonitor. by rewrite Hidle. }
  unfold connectToMailMonitor in E1. rt_simpl. fold sid in E1.
  assert (Hrestart : ∀ r config' onNewMail', isMonitoring (vars r) = false →
            log (step rev r (CallStart config' onNewMail')) = log r ++ [Connect (nextId r)]).
  { intros r c' cb' Hr. unfold step, startMailMonitor. rewrite Hr.
    unfold connectToMailMonitor. by rt_simpl. }
  split; [by rewrite E1|]. split.
  - assert (E2 : isMonitoring (vars rt2) = false
                 ∧ log rt2 = log rt1 ++ [SetTimeout (sid + 1) Reconnect reconnectDelay;
                                         StartThrows err]).
    { unfold rt2, step. rewrite E1. has_listener.
      unfold handleDisconnect. rt_simpl. unfold rejectPromise. rt_simpl.
      rewrite lookup_insert_eq. unfold rejected. rt_simpl.
      by rewrite <- !app_assoc. }
    destruct E2 as [E2 E2']. split_and!; [done|done|]. intros. by apply Hrestart.
  - assert (E3 : isMonitoring (vars rt3) = false
                 ∧ log rt3 = log rt1 ++ [OpenBox sid (sid + 1); StartThrows err]).
    { unfold rt3, step. rewrite E1. has_listener.
      unfold openBoxAndListen. rt_simpl. unfold openBoxCallback. rt_simpl.
      rewrite lookup_insert_eq. rt_simpl. unfold rejectPromise. rt_simpl.
      rewrite lookup_insert_eq. unfold rejected. rt_simpl.
      by rewrite <- !app_assoc. }
    destruct E3 as [E3 E3']. split_and!; [done|done|]. intros. by apply Hrestart.
Qed.

Lemma disconnect_effect rt sid :
  isMonitoring (vars rt) = true → imap (vars rt) = Some sid →
  handleDisconnect rt
  = emit (bump (set_timers (set_reconnectTimer (set_imap (removeAllListeners sid rt) None)
                              (Some (nextId rt)))
                  (<[nextId rt := Reconnect]> (timers rt))))
         (SetTimeout (nextId rt) Reconnect reconnectDelay).
Proof. intros H1 H2. unfold handleDisconnect. by rewrite H1, H2. Qed.

Lemma removed_listener rt sid l :
  hasListener (removeAllListeners sid rt) sid l = false.
Proof.
  unfold hasListener. apply bool_decide_eq_false. rt_simpl.
  by intros [? _]%list_elem_of_filter.
Qed.

Lemma end_dropped rev rt sid :
  isMonitoring (vars rt) = true → imap (vars rt) = Some sid →
  hasListener rt sid LEnd = true →
  dropped rt (step rev rt (OnEnd sid)) sid.
Proof.
  intros H1 H2 H3. unfold step. rewrite H3.
  rewrite (disconnect_effect _ sid) by done. rt_simpl.
  unfold dropped. rt_simpl. split_and!; try done.
  intros l. unfold hasListener. apply bool_decide_eq_false. rt_simpl.
  by intros [? _]%list_elem_of_filter.
Qed.

Lemma error_dropped rev rt sid err :
  isMonitoring (vars rt) = true → imap (vars rt) = Some sid →
  hasListener rt sid LError = true → promises rt !! sid ≠ Some AwaitStart →
  dropped rt (step rev rt (OnError sid err)) sid.
Proof.
  intros H1 H2 H3 H4. unfold step. rewrite H3.
  rewrite (disconnect_effect _ sid) by done.
  unfold rejectPromise. rt_simpl.
  destruct (promises rt !! sid) as [[|]|] eqn:Ep; [done| |]; unfold rejected; rt_simpl.
  all: unfold dropped; rt_simpl; split_and!; try done.
  all: intros l; unfold hasListener; apply bool_decide_eq_false; rt_simpl.
  all: by intros [? _]%list_elem_of_filter.
Qed.

Lemma searchCallback_log rev results rt sid :
  imap (vars rt) = Some sid →
  log (searchCallback rev (inr results) rt)
  = log rt ++ match filter (λ u, u ∉ ledger rt) results with
              | [] => []
              | newUids => [Fetch sid (nextId rt) newUids]
              end.
Proof.
  intros Hi. unfold searchCallback, ledger.
  destruct results as [|r0 rs]; [by rewrite app_nil_r|].
  destruct (filter _ (r0 :: rs)) as [|n0 ns]; [by rewrite app_nil_r|].
  destruct rev; rt_simpl; by rewrite Hi.
Qed.

(** The fetch that a search callback issues, as a pending request. *)
Lemma searchCallback_fetch rev results rt sid n0 ns :
  imap (vars rt) = Some sid →
  filter (λ u, u ∉ ledger rt) results = n0 :: ns →
  let rt' := searchCallback rev (inr results) rt in
  requests rt' = <[nextId rt := ReqFetch (n0 :: ns) []]> (requests rt)
  ∧ onNewMailCallback (vars rt') = onNewMailCallback (vars rt).
Proof.
  intros Hi Hf. unfold searchCallback. unfold ledger in Hf.
  destruct results as [|r0 rs]; [done|]. rewrite Hf.
  destruct rev; rt_simpl; by rewrite Hi.
Qed.

(** The messages of a fetch are collected; when the fetch ends they are
    handed to the callback in one batch, the highest sequence number first. *)
Lemma fetch_delivers rev rid uids cb msgs : ∀ rt acc,
  requests rt !! rid = Some (ReqFetch uids acc) →
  onNewMailCallback (vars rt) = Some cb →
  acc ++ msgs ≠ [] →
  log (run rev rt (map (OnMessage rid) msgs ++ [OnFetchEnd rid]))
  = log rt ++ [Notify cb (sortDesc seqno (acc ++ msgs))].
Proof.
  induction msgs as [|m msgs IH]; intros rt acc Hr Hcb Hne.
  - rewrite app_nil_r in *. unfold run. simpl. unfold fetchEnd. rewrite Hr.
    destruct acc as [|a acc]; [done|]. rt_simpl. by rewrite Hcb.
  - change (run rev rt (map (OnMessage rid) (m :: msgs) ++ [OnFetchEnd rid]))
      with (run rev (step rev rt (OnMessage rid m))
                (map (OnMessage rid) msgs ++ [OnFetchEnd rid])).
    assert (E : requests (step rev rt (OnMessage rid m)) !! rid
                = Some (ReqFetch uids (acc ++ [m]))
                ∧ onNewMailCallback (vars (step rev rt (OnMessage rid m))) = Some cb
                ∧ log (step rev rt (OnMessage rid m)) = log rt).
    { unfold step, messageCallback. rewrite Hr.
      destruct rev; rt_simpl; by rewrite (lookup_insert_eq (requests rt) rid). }
    destruct E as (E1 & E2 & E3).
    rewrite (IH _ (acc ++ [m])), E3; try done.
    + by rewrite <- app_assoc.
    + rewrite <- app_assoc. simpl. by destruct acc.
Qed.

(** What follows a drop: an end event of the dead session does nothing, an
    error event of it finds no listener; the timer makes one connection
    attempt, and once the folder is open a search is issued whose callback
    fetches only what the ledger of before the drop does not hold. *)
Lemma reconnect_resumes rev rt rt' sid config total results :
  dropped rt rt' sid → imapConfig (vars rt) = Some config →
  let tid := nextId rt in
  let sid' := nextId rt' in
  let rtA := step rev rt' (OnTimer tid) in
  let rtB := step rev rtA (OnReady sid') in
  let rtC := step rev rtB (OnOpenBox (sid' + 1) (inr total)) in
  let rtD := step rev rtC (OnSearch (sid' + 2) (inr results)) in
  let newUids := filter (λ u, u ∉ ledger rt) results in
  (∀ err, step rev rt' (OnEnd sid) = rt'
          ∧ step rev rt' (OnError sid err) = emit rt' Uncaught)
  ∧ log rtA = log rt' ++ [Connect sid']
  ∧ log rtB = log rtA ++ [OpenBox sid' (sid' + 1)]
  ∧ log rtC = log rtB ++ [Search sid' (sid' + 2); SetTimeout (sid' + 3) Poll pollInterval]
  ∧ ledger rtC = ledger rt
  ∧ (newUids ≠ [] →
       log rtD = log rtC ++ [Fetch sid' (sid' + 4) newUids]
       ∧ requests rtD !! (sid' + 4) = Some (ReqFetch newUids [])
       ∧ onNewMailCallback (vars rtD) = onNewMailCallback (vars rt))
  ∧ (newUids = [] → log rtD = log rtC).
Proof.
  intros (Hlog & Htm & Hled & Hmon & Himap & Hcfg & Hnext & Hls & Hcb) Hc.
  intros tid sid0 rtA rtB rtC rtD newUids. subst tid sid0.
  split.
  { intros err. unfold step. by rewrite !Hls. }
  assert (EA : rtA = connectToMailMonitor AwaitReconnect
                       (set_timers rt' (delete (nextId rt) (timers rt')))).
  { unfold rtA, step. rewrite Htm. rewrite lookup_insert_eq.
    unfold timerCallback. rt_simpl. by rewrite Hmon. }
  unfold connectToMailMonitor in EA. rt_simpl. rewrite Hcfg, Hc in EA.
  assert (EB : rtB = openBoxAndListen (nextId rt') (dropListener (nextId rt') LReady rtA)).
  { unfold rtB, step. rewrite EA. by has_listener. }
  unfold openBoxAndListen in EB. rewrite EA in EB. rt_simpl.
  assert (EC : log rtC = log rtB ++ [Search (nextId rt') ((nextId rt') + 2);
                                    SetTimeout ((nextId rt') + 3) Poll pollInterval]
               ∧ ledger rtC = ledger rt
               ∧ imap (vars rtC) = Some (nextId rt')
               ∧ nextId rtC = (nextId rt') + 4
               ∧ requests rtC !! ((nextId rt') + 2) = Some ReqSearch
               ∧ onNewMailCallback (vars rtC) = onNewMailCallback (vars rt)).
  { unfold rtC, step, openBoxCallback. rewrite EB. rt_simpl.
    rewrite lookup_insert_eq. unfold fetchLatestUnread. rt_simpl. rewrite Hmon. rt_simpl.
    unfold startPolling. rt_simpl. rewrite Hmon. rt_simpl.
    unfold resolvePromise. rt_simpl. rewrite lookup_insert_eq. rt_simpl.
    replace ((nextId rt') + 1 + 1) with ((nextId rt') + 2) by lia.
    replace ((nextId rt') + 2 + 1) with ((nextId rt') + 3) by lia.
    replace ((nextId rt') + 3 + 1) with ((nextId rt') + 4) by lia.
    rewrite lookup_insert_eq, <- !app_assoc. split_and!; done. }
  destruct EC as (EC1 & EC2 & EC3 & EC4 & EC5 & EC6).
  split_and!; [by rewrite EA|by rewrite EB, EA; rt_simpl; rewrite <- !app_assoc|done|done| |].
  - intros Hne.
    set (rtC' := set_requests rtC (delete (nextId rt' + 2) (requests rtC))).
    assert (ED : rtD = searchCallback rev (inr results) rtC').
    { unfold rtD, step. by rewrite EC5. }
    assert (Hf : filter (λ u, u ∉ ledger rtC') results = newUids).
    { change (ledger rtC') with (ledger rtC). by rewrite EC2. }
    rewrite ED. rewrite (searchCallback_log _ _ _ (nextId rt')) by done. rewrite Hf.
    destruct newUids as [|n0 ns] eqn:En; [done|].
    destruct (searchCallback_fetch rev results rtC' (nextId rt') n0 ns EC3 Hf) as [Hq Hk].
    split_and!.
    + change (nextId rtC') with (nextId rtC). by rewrite EC4.
    + rewrite Hq. change (nextId rtC') with (nextId rtC). rewrite EC4.
      apply (lookup_insert_eq _ (nextId rt' + 4)).
    + by rewrite Hk.
  - intros Hnil. unfold rtD, step. rewrite EC5.
    rewrite (searchCallback_log _ _ _ (nextId rt')) by done.
    rt_simpl.
    change (ledger (set_requests rtC (delete (nextId rt' + 2) (requests rtC))))
      with (ledger rtC).
    rewrite EC2. fold newUids. rewrite Hnil. by rewrite app_nil_r.
Qed.

Lemma unreserved_refl rt : unreserved rt rt.
Proof. split; [done|]. exists []. split; [by rewrite app_nil_r|]. by intros ? ?%elem_of_nil. Qed.

Lemma unreserved_trans rt1 rt2 rt3 :
  unreserved rt1 rt2 → unreserved rt2 rt3 → unreserved rt1 rt3.
Proof.
  intros (L1 & d1 & E1 & F1) (L2 & d2 & E2 & F2). split; [auto|].
  exists (d1 ++ d2). split; [by rewrite E2, E1, app_assoc|].
  intros u. rewrite fetched_app. intros [Hu|Hu]%elem_of_app; [auto|].
  intros Hl. by apply (F2 u Hu), L1.
Qed.

Lemma quiet_unreserved rt rt' : quiet rt rt' → unreserved rt rt'.
Proof.
  intros (L & _ & d & E & F & _). split; [by rewrite L|].
  exists d. split; [done|]. rewrite F. by intros ? ?%elem_of_nil.
Qed.

Lemma unreserved_searchCallback rev result rt :
  unreserved rt (searchCallback rev result rt).
Proof.
  unfold searchCallback.
  destruct result as [err|[|r0 rs]]; try apply unreserved_refl.
  set (newUids := filter (λ uid, uid ∉ lastCheckedUids (vars rt)) (r0 :: rs)).
  assert (Hfresh : ∀ u, u ∈ newUids → u ∉ ledger rt).
  { intros u Hu. by apply list_elem_of_filter in Hu as [? _]. }
  clearbody newUids. destruct newUids as [|n0 ns]; [apply unreserved_refl|].
  unfold unreserved.
  destruct rev, (imap (vars rt)) as [sid|] eqn:Ei; rt_simpl; rewrite ?Ei; rt_simpl.
  all: split; [intros u Hu; try done; apply elem_of_union; by left|].
  all: eexists; split; [reflexivity|].
  all: unfold fetched; simpl; rewrite ?app_nil_r; try done.
  all: by intros ? ?%elem_of_nil.
Qed.

Lemma unreserved_step rev rt ev : isStop ev = false → unreserved rt (step rev rt ev).
Proof.
  intros Hs. destruct (isQuiet ev) eqn:Eq.
  { by apply quiet_unreserved, quiet_step. }
  destruct ev; try done; unfold step.
  - destruct (requests rt !! request) as [[p| |uids messages]|] eqn:Er;
      try apply unreserved_refl.
    eapply unreserved_trans; [|apply unreserved_searchCallback].
    apply quiet_unreserved. quiet_prim.
  - unfold messageCallback.
    destruct (requests rt !! request) as [[p| |uids messages]|] eqn:Er;
      try apply unreserved_refl.
    unfold unreserved. destruct rev; rt_simpl.
    all: split; [intros u Hu; try done; apply elem_of_union; by left|].
    all: exists []; split; [by rewrite app_nil_r|by intros ? ?%elem_of_nil].
  - unfold fetchEnd.
    destruct (requests rt !! request) as [[p| |uids messages]|] eqn:Er;
      try apply unreserved_refl.
    unfold unreserved.
    destruct messages as [|m0 ms], (onNewMailCallback (vars rt)) as [cb|] eqn:Ec;
      rt_simpl; rewrite ?Ec; rt_simpl.
    all: split; [done|].
    all: first [ by (exists []; split; [by rewrite app_nil_r|by intros ? ?%elem_of_nil])
               | eexists; split; [reflexivity|by intros ? ?%elem_of_nil] ].
Qed.

Lemma unreserved_run rev evs : ∀ rt,
  neverStopped evs = true → unreserved rt (run rev rt evs).
Proof.
  induction evs as [|ev evs IH]; intros rt Hs; [apply unreserved_refl|].
  simpl in Hs. apply andb_prop in Hs as [Hs1 Hs2]. apply negb_true_iff in Hs1.
  simpl. eapply unreserved_trans; [by apply unreserved_step|by apply IH].
Qed.

Lemma wellBehaved_app rev evs1 : ∀ rt evs2,
  wellBehaved rev rt (evs1 ++ evs2) = true →
  wellBehaved rev rt evs1 = true ∧ wellBehaved rev (run rev rt evs1) evs2 = true.
Proof.
  induction evs1 as [|ev evs1 IH]; intros rt evs2 H; [done|].
  simpl in H. apply andb_prop in H as [H1 H2].
  destruct (IH _ _ H2) as [? ?]. simpl. by rewrite H1.
Qed.

Lemma run_app rev rt evs1 evs2 :
  run rev rt (evs1 ++ evs2) = run rev (run rev rt evs1) evs2.
Proof. unfold run. apply foldl_app. Qed.

(** X1: in the later revision, whatever the events, as long as the watcher
    is not stopped, no UID is fetched twice and no UID is handed to the
    notification callback twice, and what was handed over is in the ledger. *)
Theorem later_revision_at_most_once (rt : Runtime) (evs : list Event) :
  noFetchPending rt →
  neverStopped evs = true →
  wellBehaved Later rt evs = true →
  ∃ new, log (run Later rt evs) = log rt ++ new
         ∧ NoDup (fetched new) ∧ NoDup (notified new)
         ∧ ∀ u, u ∈ notified new → u ∈ ledger (run Later rt evs).
Proof.
  intros H0 Hs Hw.
  destruct (Inv_run (log rt) evs rt Hs Hw (Inv_start rt H0)) as (new & Hlog & [H1 H2 H3 H4 H5 H6]).
  by exists new.
Qed.

Lemma neverStopped_app evs1 evs2 :
  neverStopped (evs1 ++ evs2) = neverStopped evs1 && neverStopped evs2.
Proof. unfold neverStopped. apply forallb_app. Qed.

Lemma drop_dropped rev rt d sid :
  isMonitoring (vars rt) = true → imap (vars rt) = Some sid →
  hasListener rt sid (dropHandler d) = true → promises rt !! sid ≠ Some AwaitStart →
  dropped rt (step rev rt (dropEvent d sid)) sid.
Proof.
  intros H1 H2 H3 H4. destruct d as [err|]; cbn [dropEvent dropHandler] in *.
  - by apply (error_dropped rev).
  - by apply (end_dropped rev).
Qed.

(** Either revision, from any state in which the watcher runs on session
    [sid]: what the loss of the session and the reconnection do. *)
Lemma reconnect_after_drop
    (rev : Revision) (rt1 : Runtime) (evs2 : list Event) (d : Drop) (sid : N)
    (config : Config) (total : Z) (results : list N) :
  let tid := nextId rt1 in
  let rt2 := step rev rt1 (dropEvent d sid) in
  let sid' := nextId rt2 in
  let reconnect :=
    [ OnTimer tid; OnReady sid'; OnOpenBox (sid' + 1) (inr total);
      OnSearch (sid' + 2) (inr results) ] in
  let rt3 := run rev rt2 reconnect in
  let rt4 := run rev rt3 evs2 in
  let newUids := filter (λ u, u ∉ ledger rt1) results in
  neverStopped evs2 = true →
  isMonitoring (vars rt1) = true →
  imap (vars rt1) = Some sid →
  imapConfig (vars rt1) = Some config →
  hasListener rt1 sid (dropHandler d) = true →
  promises rt1 !! sid ≠ Some AwaitStart →
  log rt2 = log rt1 ++ [SetTimeout tid Reconnect reconnectDelay]
  ∧ ledger rt2 = ledger rt1
  ∧ (∀ err, step rev rt2 (OnEnd sid) = rt2
            ∧ step rev rt2 (OnError sid err) = emit rt2 Uncaught)
  ∧ log rt3
    = log rt2
      ++ [ Connect sid'; OpenBox sid' (sid' + 1); Search sid' (sid' + 2);
           SetTimeout (sid' + 3) Poll pollInterval ]
      ++ match newUids with
         | [] => []
         | _ :: _ => [Fetch sid' (sid' + 4) newUids]
         end
  ∧ (∀ cb msgs, onNewMailCallback (vars rt1) = Some cb → newUids ≠ [] → msgs ≠ [] →
       log (run rev rt3 (map (OnMessage (sid' + 4)) msgs ++ [OnFetchEnd (sid' + 4)]))
       = log rt3 ++ [Notify cb (sortDesc seqno msgs)])
  ∧ (∃ after, log rt4 = log rt2 ++ after ∧ ∀ u, u ∈ ledger rt1 → u ∉ fetched after).
Proof.
  intros tid rt2 sid' reconnect rt3 rt4 newUids Hs Hmon Himap Hcfg Hl Hp.
  assert (Hd : dropped rt1 rt2 sid) by (by apply drop_dropped).
  pose proof (reconnect_resumes rev rt1 rt2 sid config total results Hd Hcfg)
    as (Hsilent & HA & HB & HC & HledC & Hsome & Hnone).
  destruct Hd as (Hlog2 & _ & Hled2 & _).
  assert (E3 : rt3 = step rev (step rev (step rev (step rev rt2 (OnTimer tid))
                          (OnReady sid')) (OnOpenBox (sid' + 1) (inr total)))
                          (OnSearch (sid' + 2) (inr results))) by reflexivity.
  split_and!; [done|done|done| | |].
  - rewrite E3. clear E3. subst tid sid'. fold newUids in Hsome, Hnone.
    destruct newUids as [|n0 ns] eqn:Ef.
    + rewrite (Hnone eq_refl), HC, HB, HA, <- !app_assoc. done.
    + destruct Hsome as (Hsome & _); [done|].
      rewrite Hsome. rewrite HC, HB, HA, <- !app_assoc. done.
  - intros cb msgs Hcb Hne Hm. fold newUids in Hsome.
    destruct (Hsome Hne) as (_ & Hreq & Hk).
    change (requests rt3 !! (sid' + 4) = Some (ReqFetch newUids [])) in Hreq.
    change (onNewMailCallback (vars rt3) = onNewMailCallback (vars rt1)) in Hk.
    apply (fetch_delivers rev (sid' + 4) newUids cb msgs rt3 []); [done| |done].
    by rewrite Hk.
  - assert (Hstop : neverStopped (reconnect ++ evs2) = true) by done.
    destruct (unreserved_run rev _ rt2 Hstop) as (_ & after & Hlog & Hfresh).
    rewrite run_app in Hlog. exists after. split; [done|].
    intros u Hu Hf. apply (Hfresh u Hf). by rewrite Hled2.
Qed.

(** C7: when the session is lost while the watcher runs, exactly one
    reconnect timer is armed with the fixed delay and the ledger is kept.
    The dead session arms no second timer: its end event does nothing, and an
    error event of it finds no listener left and is thrown by the emitter.
    When the timer fires and the new session has opened the folder, a search
    is issued, and its callback fetches only the UIDs that the ledger of
    before the drop does not hold; the messages the server delivers for that
    fetch are handed to the callback in one batch.  No UID that was in the
    ledger at the drop is fetched afterwards, and over the whole run no UID is
    fetched twice or handed to the callback twice. *)
Theorem reconnect_after_drop_no_redispatch
    (rt : Runtime) (evs1 evs2 : list Event) (d : Drop) (sid : N)
    (config : Config) (total : Z) (results : list N) :
  let rt1 := run Later rt evs1 in
  let tid := nextId rt1 in
  let rt2 := step Later rt1 (dropEvent d sid) in
  let sid' := nextId rt2 in
  let reconnect :=
    [ OnTimer tid; OnReady sid'; OnOpenBox (sid' + 1) (inr total);
      OnSearch (sid' + 2) (inr results) ] in
  let rt3 := run Later rt2 reconnect in
  let rt4 := run Later rt3 evs2 in
  let newUids := filter (λ u, u ∉ ledger rt1) results in
  noFetchPending rt →
  neverStopped (evs1 ++ evs2) = true →
  wellBehaved Later rt (evs1 ++ dropEvent d sid :: reconnect ++ evs2) = true →
  isMonitoring (vars rt1) = true →
  imap (vars rt1) = Some sid →
  imapConfig (vars rt1) = Some config →
  hasListener rt1 sid (dropHandler d) = true →
  promises rt1 !! sid ≠ Some AwaitStart →
  log rt2 = log rt1 ++ [SetTimeout tid Reconnect reconnectDelay]
  ∧ timers rt2 = <[tid := Reconnect]> (timers rt1)
  ∧ ledger rt2 = ledger rt1
  ∧ (∀ err, step Later rt2 (OnEnd sid) = rt2
            ∧ step Later rt2 (OnError sid err) = emit rt2 Uncaught)
  ∧ log rt3
    = log rt2
      ++ [ Connect sid'; OpenBox sid' (sid' + 1); Search sid' (sid' + 2);
           SetTimeout (sid' + 3) Poll pollInterval ]
      ++ match newUids with
         | [] => []
         | _ :: _ => [Fetch sid' (sid' + 4) newUids]
         end
  ∧ (∀ cb msgs, onNewMailCallback (vars rt1) = Some cb → newUids ≠ [] → msgs ≠ [] →
       log (run Later rt3 (map (OnMessage (sid' + 4)) msgs ++ [OnFetchEnd (sid' + 4)]))
       = log rt3 ++ [Notify cb (sortDesc seqno msgs)])
  ∧ (∃ after, log rt4 = log rt2 ++ after ∧ ∀ u, u ∈ ledger rt1 → u ∉ fetched after)
  ∧ (∃ new, log rt4 = log rt ++ new ∧ NoDup (fetched new) ∧ NoDup (notified new)).
Proof.
  intros rt1 tid rt2 sid' reconnect rt3 rt4 newUids H0 Hs Hw Hmon Himap Hcfg Hl Hp.
  rewrite neverStopped_app in Hs. apply andb_prop in Hs as [Hs1 Hs2].
  destruct (reconnect_after_drop Later rt1 evs2 d sid config total results
              Hs2 Hmon Himap Hcfg Hl Hp) as (C1 & C2 & C3 & C4 & C5 & C6).
  destruct (drop_dropped Later rt1 d sid Hmon Himap Hl Hp) as (_ & Htm & _).
  split_and!; try done.
  assert (Hfull : run Later rt (evs1 ++ dropEvent d sid :: reconnect ++ evs2) = rt4).
  { unfold rt4, rt3, rt2, rt1, run. rewrite foldl_app. reflexivity. }
  assert (Hstop : neverStopped (evs1 ++ dropEvent d sid :: reconnect ++ evs2) = true).
  { rewrite neverStopped_app, Hs1. simpl. by destruct d. }
  destruct (Inv_run (log rt) _ rt Hstop Hw (Inv_start rt H0))
    as (new & Hlog & [F1 F2 _ _ _ _]).
  rewrite Hfull in Hlog. by exists new.
Qed.

(** A run without incident, as the effects it logs: connect, open the
    folder, search, arm the poll timer, return from the start, fetch UID 7,
    hand the message to the callback. *)
Example running_log :
  log (run Later init runningTrace)
  = [ Connect 0; OpenBox 0 1; Search 0 2; SetTimeout 3 Poll pollInterval; StartReturns;
      Fetch 0 4 [7]; Notify 0 [mail 1 7] ]
  ∧ log (run Earlier init runningTrace) = log (run Later init runningTrace).
Proof. vm_compute. done. Qed.

(** C1: in the earlier revision the UID enters the ledger only when the
    attributes of the fetched message arrive.  Two detection passes whose
    search callbacks run before the first fetch is answered both select
    UID 7: it is fetched twice and handed to the callback twice.  The later
    revision, on the same events, fetches and notifies it once. *)
Theorem earlier_revision_notifies_twice :
  wellBehaved Earlier init raceTrace = true
  ∧ neverStopped raceTrace = true
  ∧ bool_decide (7 ∈ ledger (run Earlier init (take 5 raceTrace))) = false
  ∧ fetched (log (run Earlier init raceTrace)) = [7; 7]
  ∧ notified (log (run Earlier init raceTrace)) = [7; 7]
  ∧ bool_decide (7 ∈ ledger (run Later init (take 5 raceTrace))) = true
  ∧ fetched (log (run Later init raceTrace)) = [7]
  ∧ notified (log (run Later init raceTrace)) = [7].
Proof. vm_compute. done. Qed.

Lemma init_noFetchPending : noFetchPending init.
Proof. intros rid uids msgs. change (requests init) with (∅ : gmap N Request). by rewrite lookup_empty. Qed.

Lemma reconnect_after_drop_witness :
  let rt1 := run Later init runningTrace in
  let rt2 := step Later rt1 (OnEnd 0) in
  let rt3 := run Later rt2 [ OnTimer 5; OnReady 6; OnOpenBox 7 (inr 2%Z);
                             OnSearch 8 (inr [7; 9]) ] in
  log rt2 = log rt1 ++ [SetTimeout 5 Reconnect reconnectDelay]
  ∧ ledger rt2 = ledger rt1
  ∧ log (run Later rt3 [OnMessage 10 (mail 2 9); OnFetchEnd 10])
    = log rt3 ++ [Notify 0 [mail 2 9]].
Proof.
  intros rt1 rt2 rt3.
  pose proof (reconnect_after_drop_no_redispatch init runningTrace
                [OnMessage 10 (mail 2 9); OnFetchEnd 10] SessionEnd 0 config0 2 [7; 9])
    as H.
  cbv zeta in H.
  destruct H as (H1 & _ & H2 & _ & _ & H3 & _).
  - exact init_noFetchPending.
  - vm_compute; reflexivity.
  - vm_compute; reflexivity.
  - vm_compute; reflexivity.
  - vm_compute; reflexivity.
  - vm_compute; reflexivity.
  - vm_compute; reflexivity.
  - vm_compute. discriminate.
  - split; [exact H1|]. split; [exact H2|].
    refine (H3 0 [mail 2 9] _ _ _).
    + vm_compute; reflexivity.
    + vm_compute. discriminate.
    + discriminate.
Defined.

Lemma no_new_uid_no_fetch_witness :
  searchCallback Later (inr [7]) (run Later init runningTrace)
  = run Later init runningTrace.
Proof.
  refine (proj1 (no_new_uid_no_fetch Later (run Later init runningTrace) 0 [7] _)).
  intros u Hu. apply list_elem_of_singleton in Hu. subst u.
  refine (bool_decide_unpack _ _). vm_compute. exact I.
Defined.

Lemma failed_start_witness :
  isMonitoring (vars (step Later init (CallStart config0 0))) = true
  ∧ log (step Later init (CallStart config0 0)) = log init ++ [Connect 0].
Proof.
  refine (proj1 (failed_start_leaves_watcher_stopped Later init config0 0 sendFailure _)).
  reflexivity.
Defined.

Lemma later_revision_at_most_once_witness :
  ∃ new, log (run Later init raceTrace) = log init ++ new
         ∧ NoDup (fetched new) ∧ NoDup (notified new)
         ∧ ∀ u, u ∈ notified new → u ∈ ledger (run Later init raceTrace).
Proof.
  apply (later_revision_at_most_once init raceTrace).
  - exact init_noFetchPending.
  - vm_compute; reflexivity.
  - vm_compute; reflexivity.
Defined.

End WatcherFacts.

(** ** Dispatcher *)

Section DispatcherFacts.

Lemma handleNewMail_cons rev w msg rest :
  headers msg ≠ None → (notify rev w msg).2 = true →
  handleNewMail rev w (msg :: rest)
  = ((notify rev w msg).1 ++ (handleNewMail rev w rest).1, (handleNewMail rev w rest).2).
Proof.
  intros H Hok. simpl. destruct (headers msg); [|done].
  destruct (notify rev w msg) as [acts ok]. simpl in Hok. subst ok.
  by destruct (handleNewMail rev w rest).
Qed.

Lemma handleNewMail_abort rev w msg rest :
  headers msg ≠ None → (notify rev w msg).2 = false →
  handleNewMail rev w (msg :: rest) = ((notify rev w msg).1, false).
Proof.
  intros H Hok. simpl. destruct (headers msg); [|done].
  destruct (notify rev w msg) as [acts ok]. simpl in Hok. by subst ok.
Qed.

Ltac in_list :=
  rewrite ?elem_of_cons, ?elem_of_app, ?elem_of_nil;
  intuition (try discriminate; try congruence).

(** One iteration of the later revision whose send, if it fails, fails with
    a reason. *)
Lemma notify_later w msg :
  reasonGiven w msg →
  let acts := (notify Later w msg).1 in
  (notify Later w msg).2 = true
  ∧ Broadcast msg ∈ acts
  ∧ (∀ u f, AddFlags u f ∈ acts →
       f = Seen ∧ uid msg = u ∧ broadcast w msg = SendOk ∧ sessionUp w msg = true)
  ∧ (broadcast w msg ≠ SendOk → Log (SendFailed (uid msg)) ∈ acts)
  ∧ (broadcast w msg = SendOk → sessionUp w msg = false ∨ addFlags w msg ≠ None →
       Log (PostProcessingFailed (uid msg)) ∈ acts)
  ∧ Expunge ∉ acts.
Proof.
  intros [Hr1 Hr2]. unfold notify, sendFailed, postProcess, markEmailAsRead.
  destruct (broadcast w msg) as [|[|e]|[|e]]; try done;
    destruct (sessionUp w msg), (addFlags w msg) as [e'|];
    simpl; split_and!; try (intros u f); in_list.
Qed.

(** C3: in the earlier revision the broadcast is not awaited, so a rejected
    send does not reach the [catch]: the message whose notification failed is
    flagged as deleted and expunged.  The later revision, in the same world,
    logs the failure and leaves the message alone. *)
Theorem earlier_revision_deletes_after_failed_send :
  handleNewMail Earlier rejectingWorld [mail 1 7]
  = ([Broadcast (mail 1 7); AddFlags 7 Deleted; Expunge], true)
  ∧ handleNewMail Later rejectingWorld [mail 1 7]
    = ([Broadcast (mail 1 7); Log (SendFailed 7)], true).
Proof. split; reflexivity. Qed.

(** X2: the loop of the later revision, on messages that carry headers
    and in a world where no send fails with [null] or [undefined], runs to
    its end and tries to send every message, whatever failed before; a flag
    is set only for a message whose send succeeded, and it is the seen flag;
    a failed send and a failed post-processing are logged; nothing is
    expunged. *)
Theorem later_dispatch_isolates_failures (w : World) (messages : list Message) :
  Forall (λ m, headers m ≠ None ∧ reasonGiven w m) messages →
  let acts := (handleNewMail Later w messages).1 in
  (handleNewMail Later w messages).2 = true
  ∧ (∀ m, m ∈ messages → Broadcast m ∈ acts)
  ∧ (∀ u f, AddFlags u f ∈ acts →
       f = Seen ∧ ∃ m, m ∈ messages ∧ uid m = u
                       ∧ broadcast w m = SendOk ∧ sessionUp w m = true)
  ∧ (∀ m, m ∈ messages → broadcast w m ≠ SendOk → Log (SendFailed (uid m)) ∈ acts)
  ∧ (∀ m, m ∈ messages → broadcast w m = SendOk →
       sessionUp w m = false ∨ addFlags w m ≠ None →
       Log (PostProcessingFailed (uid m)) ∈ acts)
  ∧ Expunge ∉ acts.
Proof.
  induction 1 as [|msg rest [Hh Hr] _ IH].
  - simpl. split_and!; try done; try (by intros ? ?%elem_of_nil).
    + by intros ? ? ?%elem_of_nil.
    + by intros ?%elem_of_nil.
  - cbv zeta in *.
    destruct (notify_later w msg Hr) as (N0 & N1 & N2 & N3 & N4 & N5).
    rewrite handleNewMail_cons by done. cbn [fst snd].
    destruct IH as (I1 & I2 & I3 & I4 & I5 & I6).
    split_and!; [done| | | | |].
    + intros m [->|Hm]%elem_of_cons; apply elem_of_app; auto.
    + intros u f [Hin|Hin]%elem_of_app.
      * destruct (N2 u f Hin) as (-> & ? & ? & ?). split; [done|].
        exists msg. split_and!; try done. by left.
      * destruct (I3 u f Hin) as (-> & m & ? & ? & ? & ?). split; [done|].
        exists m. split_and!; try done. by right.
    + intros m [->|Hm]%elem_of_cons Hf; apply elem_of_app; auto.
    + intros m [->|Hm]%elem_of_cons Hs Hp; apply elem_of_app; auto.
    + intros [?|?]%elem_of_app; auto.
Qed.

Lemma later_dispatch_witness :
  (handleNewMail Later rejectingWorld [mail 1 7; mail 2 9]).2 = true.
Proof.
  refine (proj1 (later_dispatch_isolates_failures rejectingWorld [mail 1 7; mail 2 9] _)).
  repeat constructor; discriminate.
Defined.

End DispatcherFacts.

(** ** Listing *)

Section ListingFacts.

Lemma insertDesc_smallest key x l :
  (∀ y, y ∈ l → (key x < key y)%Z) → insertDesc key x l = l ++ [x].
Proof.
  induction l as [|y l IH]; intros H; simpl; [done|].
  assert (Hy : (key x < key y)%Z) by (apply H; by left).
  apply Z.ltb_lt in Hy. rewrite Hy. f_equal. apply IH. intros z Hz. apply H. by right.
Qed.

Lemma sortDesc_ascending key l : ascending key l → sortDesc key l = rev l.
Proof.
  induction l as [|x l IH]; simpl; [done|]. intros [Hx Hl].
  rewrite IH by done. apply insertDesc_smallest.
  intros y Hy. apply Hx. by apply list_elem_of_In, in_rev, list_elem_of_In in Hy.
Qed.

Lemma filter_all {A} (P : A → Prop) `{∀ x, Decision (P x)} (l : list A) :
  (∀ x, x ∈ l → P x) → filter P l = l.
Proof.
  induction l as [|x l IH]; intros Hall; [done|].
  rewrite filter_cons_True by (apply Hall; by left).
  f_equal. apply IH. intros y Hy. apply Hall. by right.
Qed.

(** C9: when the search for all messages is rejected, the listing falls
    back to [getMailList], which computes the bounds [max(1, total - limit + 1)]
    and [total] from the number of messages in the folder and hands them to
    [imap.fetch], where they select by UID: the fallback returns the messages
    whose UID lies between the bounds.  A folder of three messages with UIDs
    11, 12 and 15 listed with limit 10 gives no message, and a folder with
    UIDs 2, 5 and 9 listed with limit 2 gives the oldest message alone. *)
Theorem fallback_range_read_as_uids :
  (∀ folder limit err, folder ≠ [] →
     let total := Z.of_nat (length folder) in
     let first := Z.max 1 (total - limit + 1) in
     listMessages (folderServer folder (Some err)) All limit
     = inr (sortDesc seqno (filter (λ m, (first ≤ uidKey m ≤ total)%Z) folder)))
  ∧ listMessages (folderServer threeMessages (Some searchRejected)) All 10 = inr []
  ∧ listMessages (folderServer staleUids (Some searchRejected)) All 2 = inr [mail 1 2].
Proof.
  split; [|split; reflexivity].
  intros folder limit err Hne total first.
  unfold listMessages, searchMails, getMailList. simpl.
  destruct (Z.eqb_spec (Z.of_nat (length folder)) 0) as [Hz|Hz].
  { destruct folder; [done|]. simpl length in Hz. lia. }
  f_equal. f_equal. apply list_filter_iff. intros m.
  unfold inRange. by rewrite andb_true_iff, !Z.leb_le.
Qed.

Lemma slice_all {A} (limit : Z) (l : list A) :
  (Z.of_nat (length l) ≤ limit)%Z → (0 < limit)%Z → slice (- limit) l = l.
Proof.
  intros H1 H2. unfold slice.
  destruct (Z.ltb_spec (- limit) 0); [|lia].
  replace (Z.to_nat (Z.max (Z.of_nat (length l) + - limit) 0)) with 0%nat by lia.
  apply drop_0.
Qed.

(** X3: when the search for all messages succeeds, UIDs grow with the
    position in the folder and the folder holds no more messages than the
    limit, the listing returns every message, the newest first. *)
Theorem search_lists_all_newest_first (folder : list Message) (limit : Z) :
  ascending uidKey folder → (Z.of_nat (length folder) ≤ limit)%Z → (0 < limit)%Z →
  listMessages (folderServer folder None) All limit = inr (rev folder).
Proof.
  intros Hasc Hlen Hlim. unfold listMessages, searchMails. simpl srv_openBox.
  destruct folder as [|m0 ms] eqn:Ef; [done|]. rewrite <- Ef in *.
  assert (Ht : (Z.of_nat (length folder) =? 0)%Z = false).
  { apply Z.eqb_neq. rewrite Ef. simpl length. lia. }
  rewrite Ht. simpl srv_search.
  destruct (map uid folder) as [|u0 us] eqn:Eu; [by rewrite Ef in Eu|].
  rewrite <- Eu. rewrite slice_all; [|by rewrite length_map|done].
  simpl srv_fetch. rewrite filter_all.
  - by rewrite sortDesc_ascending.
  - intros m Hm. by apply list_elem_of_fmap_2.
Qed.

Lemma search_lists_all_witness :
  listMessages (folderServer threeMessages None) All 10 = inr (rev threeMessages).
Proof.
  apply (search_lists_all_newest_first threeMessages 10).
  - unfold threeMessages. simpl. repeat split.
    all: intros y Hy; repeat (apply elem_of_cons in Hy as [->|Hy]; [vm_compute; reflexivity|]).
    all: by apply elem_of_nil in Hy.
  - simpl. lia.
  - lia.
Defined.

End ListingFacts.
